(** * neurographia: the phrase store (src/db.js) and its import pipeline

    A shallow embedding of the [PhraseDB] class: the [phrases] table with
    its CHECK constraints, AUTOINCREMENT key and [update_timestamp]
    trigger, the five prepared statements, and the methods built on them
    ([importPhrases], [getNextPhrase], [updateStatus], [getStats]).

    Conventions of the embedding.
    - TEXT values are [string] (the UTF-8 bytes), and so are the
      well-formed JavaScript strings of a [Candidate.t]; a JavaScript
      string in general is a [list jschar], which also holds lone
      surrogates.
    - The import is modelled twice: [PhraseDB.importPhrases] on arrays of
      [Candidate.t], and [Parsed.importPhrases] on every document that
      [JSON.parse] can return; the first is the second on the documents
      of candidates ([Parsed_import_of_candidates]).
    - INTEGER values and JavaScript counters are [Z].
    - [CURRENT_TIMESTAMP] is a [Z] (seconds); the text form
      'YYYY-MM-DD HH:MM:SS' that SQLite stores is ordered the same way.
      Statements take the current time as an argument [now]; the import
      loop takes [clk], the time at which its n-th iteration runs.
    - The table is the list of its rows in rowid order.
    - A statement that fails returns [Err]; the JavaScript methods turn
      that into a thrown exception. *)

From Stdlib Require Import ZArith String Ascii List Lia Bool.
From stdpp Require Import base decidable option list strings gmap sets sorting.

Local Open Scope string_scope.
Local Open Scope list_scope.
Local Open Scope Z_scope.

(** ** Data model *)

(** One row of [phrases] (schema, db.js lines 23-31). *)
Module Row.
Record t : Type := Make {
  id : Z;
  ru : string;
  en : string;
  level : string;
  completed : Z;
  created_at : Z;
  updated_at : Z
}.
End Row.

(** One row of the [getStats] result. *)
Module Stat.
Record t : Type := Make {
  level : string;
  total : Z;
  completed : Z;
  remaining : Z
}.
End Stat.

(** One element of the imported JSON array as the phrases file is meant
    to hold it: an object whose [ru], [en] and [level] properties are
    well-formed strings when present ([None] is a missing property,
    JavaScript's [undefined]).  Elements of any other kind ([null],
    properties that are numbers, booleans, arrays or objects, strings with
    a lone surrogate) are covered by [element] and [Item.t] further down,
    together with the import on them. *)
Module Candidate.
Record t : Type := Make {
  ru : option string;
  en : option string;
  level : option string
}.
End Candidate.

(** The database file: the table and the AUTOINCREMENT counter SQLite
    keeps for it in [sqlite_sequence]. *)
Record DB : Type := MkDB {
  phrases : list Row.t;
  sqlite_sequence : Z
}.

(** The store right after [#initSchema] on a fresh file. *)
Definition empty_db : DB := MkDB [] 0.

Inductive sql_error : Type :=
  | SQLITE_CONSTRAINT_CHECK
  | SQLITE_CONSTRAINT_NOTNULL
  | SQLITE_FULL.

Inductive js_error : Type :=
  | SqliteError (e : sql_error)
  | TypeError
  | RangeError
  | Error_not_array.

Inductive result (A : Type) : Type :=
  | Ok (a : A)
  | Err (e : js_error).
Arguments Ok {A} a.
Arguments Err {A} e.

(** [const LEVELS] (db.js line 10). *)
Definition LEVELS : list string := ["A1"; "A2"; "B1"; "B2"; "C1"; "C2"].

(** ** SQL scalar functions used by the schema *)

Definition byte_of (c : ascii) : Z := Z.of_N (N_of_ascii c).

(** SQLite's [length(X)] on TEXT: the characters before the first NUL
    byte; the bytes 10xxxxxx that continue a multi-byte character are not
    counted.  [inmb] records that the previous byte opened or continued a
    multi-byte character. *)
Fixpoint sql_length_from (inmb : bool) (s : string) : Z :=
  match s with
  | EmptyString => 0
  | String c s' =>
      let b := byte_of c in
      if b =? 0 then 0
      else if inmb && (Z.land b 192 =? 128) then sql_length_from true s'
      else 1 + sql_length_from (192 <=? b) s'
  end.

Definition sql_length (s : string) : Z := sql_length_from false s.

(** The largest rowid, 2^63 - 1. *)
Definition MAX_ROWID : Z := 9223372036854775807.

Definition max_rowid (rows : list Row.t) : Z :=
  fold_right (fun r m => Z.max (Row.id r) m) 0 rows.

(** ** Schema: CHECK constraints and the trigger (db.js lines 21-44) *)

Definition check_ru (v : string) : bool := 0 <? sql_length v.
Definition check_en (v : string) : bool := 0 <? sql_length v.
Definition check_level (v : string) : bool := bool_decide (v ∈ LEVELS).

(** [CREATE TRIGGER update_timestamp AFTER UPDATE]: touches the row whose
    id is [NEW.id].  Recursive triggers are off, so its own UPDATE does
    not fire it again. *)
Definition update_timestamp (now : Z) (new_id : Z) (rows : list Row.t)
  : list Row.t :=
  map (fun r =>
         if Row.id r =? new_id
         then Row.Make (Row.id r) (Row.ru r) (Row.en r) (Row.level r)
                       (Row.completed r) (Row.created_at r) now
         else r) rows.

(** ** Ordering used by the two ORDER BY clauses *)

(** The CASE of [getNextPhrase]: no ELSE branch, so any other level
    yields NULL ([None]). *)
Definition next_case (level : string) : option Z :=
  if String.eqb level "A1" then Some 1
  else if String.eqb level "A2" then Some 2
  else if String.eqb level "B1" then Some 3
  else if String.eqb level "B2" then Some 4
  else if String.eqb level "C1" then Some 5
  else if String.eqb level "C2" then Some 6
  else None.

(** The CASE of [getStats]: ELSE 6. *)
Definition stats_case (level : string) : Z :=
  if String.eqb level "A1" then 1
  else if String.eqb level "A2" then 2
  else if String.eqb level "B1" then 3
  else if String.eqb level "B2" then 4
  else if String.eqb level "C1" then 5
  else 6.

(** Ascending order on a nullable INTEGER: NULL sorts first. *)
Definition null_ltb (a b : option Z) : bool :=
  match a, b with
  | None, None => false
  | None, Some _ => true
  | Some _, None => false
  | Some x, Some y => x <? y
  end.

(** [ORDER BY CASE level ... END, updated_at] as a comparison of rows. *)
Definition priority_leb (p q : Row.t) : bool :=
  null_ltb (next_case (Row.level p)) (next_case (Row.level q))
  || (negb (null_ltb (next_case (Row.level q)) (next_case (Row.level p)))
      && (Row.updated_at p <=? Row.updated_at q)).

Definition priority_le (p q : Row.t) : Prop := priority_leb p q = true.

Definition stats_le (a b : Stat.t) : Prop :=
  stats_case (Stat.level a) <= stats_case (Stat.level b).

(** The sorter of [getNextPhrase]: rows are put in ascending order of the
    sort key, and rows with equal keys keep the order in which the scan
    delivers them, which for rows of one level and one [updated_at] is
    the order of their rowids. *)
Fixpoint insert_by_priority (r : Row.t) (sorted : list Row.t) : list Row.t :=
  match sorted with
  | [] => [r]
  | r' :: rest =>
      if priority_leb r r' then r :: sorted
      else r' :: insert_by_priority r rest
  end.

Definition order_by_priority (rows : list Row.t) : list Row.t :=
  fold_right insert_by_priority [] rows.

#[global] Instance priority_le_dec : RelDecision priority_le :=
  fun p q => decide (priority_leb p q = true).

#[global] Instance stats_le_dec : RelDecision stats_le :=
  fun a b => decide (stats_case (Stat.level a) <= stats_case (Stat.level b)).

(** ** Prepared statements (db.js lines 49-99) *)

Module statements.

(** [INSERT INTO phrases (ru, en, level, completed) VALUES (?, ?, ?, 0)].
    The new rowid is one more than the largest rowid the table ever
    held; both timestamps default to CURRENT_TIMESTAMP.  The two errors
    are told apart with the CHECK constraints first; SQLite allocates the
    rowid first, so a row that fails a CHECK on a table that is also out
    of rowids is refused with SQLITE_FULL there.  Either way the insert
    fails and the table is unchanged. *)
Definition insertPhrase (now : Z) (ru en level : string) (db : DB)
  : result DB :=
  if negb (check_ru ru && check_en en && check_level level)
  then Err (SqliteError SQLITE_CONSTRAINT_CHECK)
  else
    let last := Z.max (max_rowid (phrases db)) (sqlite_sequence db) in
    if MAX_ROWID <=? last then Err (SqliteError SQLITE_FULL)
    else
      let row := Row.Make (last + 1) ru en level 0 now now in
      Ok (MkDB (phrases db ++ [row]) (last + 1)).

(** [SELECT ru, en, level FROM phrases]. *)
Definition getAllPhrases (db : DB) : list (string * string * string) :=
  map (fun r => (Row.ru r, Row.en r, Row.level r)) (phrases db).

(** [SELECT * FROM phrases WHERE completed = 0 ORDER BY ... LIMIT 1];
    [None] when the result set is empty.  Among rows with equal sort keys
    the one with the lowest rowid comes first. *)
Definition getNextPhrase (db : DB) : option Row.t :=
  head (order_by_priority
          (List.filter (fun r => Row.completed r =? 0) (phrases db))).

(** [UPDATE phrases SET completed = ?, updated_at = CURRENT_TIMESTAMP
    WHERE id = ?], followed by the trigger for every updated row.
    Returns the new state and the number of rows the statement itself
    changed (rows changed by the trigger are not counted). *)
Definition updateStatus (now : Z) (completed : Z) (id : Z) (db : DB)
  : DB * Z :=
  let hit := fun r : Row.t => Row.id r =? id in
  let updated :=
    map (fun r =>
           if hit r
           then Row.Make (Row.id r) (Row.ru r) (Row.en r) (Row.level r)
                         completed (Row.created_at r) now
           else r) (phrases db) in
  let fired :=
    fold_left (fun rows new => update_timestamp now (Row.id new) rows)
              (List.filter hit updated) updated in
  (MkDB fired (sqlite_sequence db),
   Z.of_nat (length (List.filter hit (phrases db)))).

(** The aggregates of one group of [getStats]. *)
Definition count_star (g : list Row.t) : Z := Z.of_nat (length g).

Definition sum_case (v : Z) (g : list Row.t) : Z :=
  fold_right (fun r acc => (if Row.completed r =? v then 1 else 0) + acc)
             0 g.

Definition group_of (level : string) (rows : list Row.t) : list Row.t :=
  List.filter (fun r => String.eqb (Row.level r) level) rows.

(** [SELECT level, COUNT( * ), SUM(...), SUM(...) FROM phrases
    GROUP BY level ORDER BY CASE level ... ELSE 6 END]: one row per
    distinct level, then sorted by the CASE value. *)
Definition getStats (db : DB) : list Stat.t :=
  merge_sort stats_le
    (map (fun l =>
            let g := group_of l (phrases db) in
            Stat.Make l (count_star g) (sum_case 1 g) (sum_case 0 g))
         (remove_dups (map Row.level (phrases db)))).

End statements.

(** ** The import pipeline's helpers (db.js lines 135-161) *)

(** The parsed import file. *)
Inductive json : Type :=
  | JSON_array (elems : list Candidate.t)
  | JSON_other.

(** JavaScript truthiness of a property that is a string or missing. *)
Definition truthy (v : option string) : bool :=
  match v with
  | Some s => negb (String.eqb s "")
  | None => false
  end.

(** [LEVELS.includes(p.level)]. *)
Definition LEVELS_includes (v : option string) : bool :=
  match v with
  | Some l => bool_decide (l ∈ LEVELS)
  | None => false
  end.

(** The filter predicate [p.ru && p.en && LEVELS.includes(p.level)]. *)
Definition is_valid (p : Candidate.t) : bool :=
  truthy (Candidate.ru p) && truthy (Candidate.en p)
  && LEVELS_includes (Candidate.level p).

(** A template-literal substitution. *)
Definition to_string (v : option string) : string :=
  match v with
  | Some s => s
  | None => "undefined"
  end.

(** The template [${ru}|${en}|${level}]. *)
Definition key (ru en level : string) : string :=
  ru +:+ "|" +:+ en +:+ "|" +:+ level.

Definition row_key (t : string * string * string) : string :=
  key t.1.1 t.1.2 t.2.

Definition candidate_key (p : Candidate.t) : string :=
  key (to_string (Candidate.ru p)) (to_string (Candidate.en p))
      (to_string (Candidate.level p)).

(** [new Set(existing.map(...))]. *)
Definition existingSet_of (existing : list (string * string * string))
  : gset string :=
  list_to_set (map row_key existing).

(** What the import call ends with: an exception, the warning about an
    empty batch, or the log line with the two counters. *)
Inductive outcome : Type :=
  | Thrown (e : js_error)
  | Warned
  | Reported (inserted skipped : Z).

(** The state of the [for] loop in the transaction body. *)
Record loop_state : Type := MkLoop {
  ls_db : DB;
  ls_inserted : Z;
  ls_skipped : Z
}.

(** [insertPhrase.run(phrase.ru, phrase.en, phrase.level)].  A candidate's
    texts are well-formed strings, which are stored as they are; a
    missing property is bound as NULL.  The bind of an arbitrary value is
    [Parsed.run_insert] below. *)
Definition run_insert (now : Z) (p : Candidate.t) (db : DB) : result DB :=
  match Candidate.ru p, Candidate.en p, Candidate.level p with
  | Some r, Some e, Some l => statements.insertPhrase now r e l db
  | _, _, _ => Err (SqliteError SQLITE_CONSTRAINT_NOTNULL)
  end.

(** The body of [insertTx]; [n] is the index of the current iteration.
    [existingSet] is read, never written. *)
Fixpoint insertTx_body (clk : nat -> Z) (existingSet : gset string)
    (n : nat) (todo : list Candidate.t) (st : loop_state)
  : result loop_state :=
  match todo with
  | [] => Ok st
  | phrase :: rest =>
      if bool_decide (candidate_key phrase ∈ existingSet)
      then insertTx_body clk existingSet (S n) rest
             (MkLoop (ls_db st) (ls_inserted st) (ls_skipped st + 1))
      else
        match run_insert (clk n) phrase (ls_db st) with
        | Err e => Err e
        | Ok db' =>
            insertTx_body clk existingSet (S n) rest
              (MkLoop db' (ls_inserted st + 1) (ls_skipped st))
        end
  end.

(** [this.db.transaction(fn)]: commit when [fn] returns, roll back to the
    state before BEGIN and rethrow when it throws. *)
Definition transaction (fn : loop_state -> result loop_state)
    (st : loop_state) : DB * result loop_state :=
  match fn st with
  | Ok st' => (ls_db st', Ok st')
  | Err e => (ls_db st, Err e)
  end.

Definition validPhrases_of (elems : list Candidate.t) : list Candidate.t :=
  List.filter is_valid elems.

(** ** The methods of [PhraseDB] (db.js lines 127-200) *)

Module PhraseDB.

Definition importPhrases (clk : nat -> Z) (parsed : json) (db : DB)
  : DB * outcome :=
  match parsed with
  | JSON_other => (db, Thrown Error_not_array)
  | JSON_array elems =>
      let validPhrases := validPhrases_of elems in
      if (length validPhrases =? 0)%nat then (db, Warned)
      else
        let existing := statements.getAllPhrases db in
        let existingSet := existingSet_of existing in
        match transaction
                (insertTx_body clk existingSet 0 validPhrases)
                (MkLoop db 0 0) with
        | (db', Ok st) => (db', Reported (ls_inserted st) (ls_skipped st))
        | (db', Err e) => (db', Thrown e)
        end
  end.

(** [this.statements.getNextPhrase.get() || null]. *)
Definition getNextPhrase (db : DB) : option Row.t :=
  statements.getNextPhrase db.

(** The object [{ id, changes }] that [updateStatus] returns. *)
Record status : Type := MkStatus { id : Z; changes : Z }.

(** [updateStatus(id, completed)]; [completed] is the truthiness of the
    argument, bound as 1 or 0. *)
Definition updateStatus (now : Z) (id : Z) (completed : bool) (db : DB)
  : DB * status :=
  let '(db', n) :=
    statements.updateStatus now (if completed then 1 else 0) id db in
  (db', MkStatus id n).

Definition getStats (db : DB) : list Stat.t := statements.getStats db.

End PhraseDB.

(** ** Histories of calls *)

(** The calls that can change the store: the two mutating methods, and a
    direct run of the insert statement (reachable through
    [getInstance().statements]). *)
Inductive call : Type :=
  | CallImport (clk : nat -> Z) (parsed : json)
  | CallUpdateStatus (now : Z) (id : Z) (completed : bool)
  | CallInsert (now : Z) (ru en level : string).

(** The store after one call; a failed insert leaves it as it was. *)
Definition exec (c : call) (db : DB) : DB :=
  match c with
  | CallImport clk parsed => (PhraseDB.importPhrases clk parsed db).1
  | CallUpdateStatus now id completed =>
      (PhraseDB.updateStatus now id completed db).1
  | CallInsert now ru en level =>
      match statements.insertPhrase now ru en level db with
      | Ok db' => db'
      | Err _ => db
      end
  end.

Definition run (cs : list call) (db : DB) : DB :=
  fold_left (fun d c => exec c d) cs db.

(** The stores the program can be in: those obtained from the fresh
    store by a history of calls. *)
Inductive reachable : DB -> Prop :=
  | reachable_fresh : reachable empty_db
  | reachable_exec c db : reachable db -> reachable (exec c db).

(** ** Sample data *)

Definition scenario : json :=
  JSON_array
    [ Candidate.Make (Some "Привет") (Some "Hello") (Some "A1");
      Candidate.Make (Some "Привет") (Some "Hello") (Some "A1");
      Candidate.Make (Some "X") (Some "Y") (Some "Z9") ].

Definition sample_db : DB :=
  run [ CallInsert 10 "a" "b" "B1"; CallInsert 11 "c" "d" "A1";
        CallInsert 12 "e" "f" "A1"; CallInsert 13 "g" "h" "C2";
        CallUpdateStatus 20 2 true ] empty_db.

(** ** Derived notions used in the statements *)

(** The (ru, en, level) triple a candidate stands for. *)
Definition candidate_triple (p : Candidate.t) : string * string * string :=
  (to_string (Candidate.ru p), to_string (Candidate.en p),
   to_string (Candidate.level p)).

(** The test [existingSet.has(key)] for a candidate. *)
Definition in_snapshot (existingSet : gset string) (p : Candidate.t) : bool :=
  bool_decide (candidate_key p ∈ existingSet).

(** The snapshot an import of [db] works with. *)
Definition snapshot (db : DB) : gset string :=
  existingSet_of (statements.getAllPhrases db).

(** The number of elements of [l] equal to [x]. *)
Definition occurrences {A} `{EqDecision A} (x : A) (l : list A) : nat :=
  length (List.filter (fun y => bool_decide (y = x)) l).

#[global] Instance candidate_eq_dec : EqDecision Candidate.t.
Proof. solve_decision. Defined.

(** The elements of [scenario], and the store its import produces from
    the fresh one when every insert runs at time 0. *)
Definition scenario_elems : list Candidate.t :=
  match scenario with
  | JSON_array elems => elems
  | JSON_other => []
  end.

Definition scenario_db : DB :=
  MkDB [ Row.Make 1 "Привет" "Hello" "A1" 0 0 0;
         Row.Make 2 "Привет" "Hello" "A1" 0 0 0 ] 2.





(** What the UPDATE and its trigger leave in place of row [r]. *)
Definition set_status (now : Z) (completed : Z) (id : Z) (r : Row.t) : Row.t :=
  if Row.id r =? id
  then Row.Make (Row.id r) (Row.ru r) (Row.en r) (Row.level r)
                completed (Row.created_at r) now
  else r.

(** The constraints of the schema on one row, with the two values the
    program ever writes to [completed]. *)
Definition row_ok (r : Row.t) : Prop :=
  check_ru (Row.ru r) = true
  ∧ check_en (Row.en r) = true
  ∧ check_level (Row.level r) = true
  ∧ (Row.completed r = 0 ∨ Row.completed r = 1).

(** Well-formed stores: every row satisfies the schema, the primary key
    is unique, and the AUTOINCREMENT counter is ahead of every rowid. *)
Definition db_ok (db : DB) : Prop :=
  Forall row_ok (phrases db)
  ∧ NoDup (map Row.id (phrases db))
  ∧ max_rowid (phrases db) <= sqlite_sequence db.

(** The store of the counterexample to completion monotonicity: the flag
    is set for an id that does not exist yet, then one phrase is
    imported. *)
Definition late_import : list call :=
  [ CallImport (fun _ => 5)
      (JSON_array [Candidate.Make (Some "a") (Some "b") (Some "A1")]) ].

(** The sum of a list of integers. *)
Definition sum_Z (l : list Z) : Z := fold_right Z.add 0 l.

(** [a]'s level comes strictly before [b]'s in [LEVELS]. *)
Definition rank_lt (a b : Stat.t) : Prop :=
  ∃ i j, LEVELS !! i = Some (Stat.level a)
         ∧ LEVELS !! j = Some (Stat.level b) ∧ (i < j)%nat.

(** The rows of [getStats] before ORDER BY, one per group. *)
Definition stat_of_group (rows : list Row.t) (l : string) : Stat.t :=
  let g := statements.group_of l rows in
  Stat.Make l (statements.count_star g) (statements.sum_case 1 g)
            (statements.sum_case 0 g).

(** Two stores with the same rowids and the same counter; they may
    differ in timestamps. *)
Definition same_ids (db1 db2 : DB) : Prop :=
  map Row.id (phrases db1) = map Row.id (phrases db2)
  ∧ sqlite_sequence db1 = sqlite_sequence db2.

(** The candidates of a batch that the loop inserts, resp. skips. *)
Definition fresh_of (ex : gset string) (todo : list Candidate.t) :=
  List.filter (fun p => negb (in_snapshot ex p)) todo.

Definition dup_of (ex : gset string) (todo : list Candidate.t) :=
  List.filter (in_snapshot ex) todo.

(** A row that an INSERT of the loop appended to [rows]. *)
Definition inserted_after (rows : list Row.t) (r : Row.t) : Prop :=
  max_rowid rows < Row.id r
  ∧ Row.completed r = 0
  ∧ check_ru (Row.ru r) = true
  ∧ check_en (Row.en r) = true
  ∧ check_level (Row.level r) = true.

(** The record with this id exists and is marked complete. *)
Definition marked_complete (id : Z) (db : DB) : Prop :=
  id ∈ map Row.id (phrases db)
  ∧ ∀ r, r ∈ phrases db → Row.id r = id → Row.completed r = 1.

(** ** The statistics table (cli.js lines 9-42, init-db.js lines 67-97) *)

(** The two accumulators of the [for] loop over the rows of [getStats]. *)
Definition accumulate (stats : list Stat.t) : Z * Z :=
  fold_left (fun acc row => (acc.1 + Stat.total row, acc.2 + Stat.completed row))
            stats (0, 0).

(** The three numbers of the closing line of the table: [total],
    [completedTotal] and [total - completedTotal].  No table is printed
    for an empty result ([if (!stats.length) return]; the setup script
    prints its "database is empty" line instead). *)
Definition overall_line (stats : list Stat.t) : option (Z * Z * Z) :=
  if (length stats =? 0)%nat then None
  else let '(total, completedTotal) := accumulate stats in
       Some (total, completedTotal, total - completedTotal).

(** ** The entry point (index.js lines 246-270) *)

Inductive main_path : Type :=
  | ExitEmptyDatabase
  | StartSession.

(** [main] after [initDB]: the check [if (!stats.length)]. *)
Definition main (db : DB) : main_path :=
  if (length (PhraseDB.getStats db) =? 0)%nat then ExitEmptyDatabase
  else StartSession.

(** ** The learning session (cli.js lines 65-208) *)

Module CLI.

(** [this.sessionStats]. *)
Record sessionStats : Type := MkStats {
  total : Z;
  completed : Z;
  skipped : Z;
  startTime : option Z
}.

(** The value set by the constructor. *)
Definition fresh_stats : sessionStats := MkStats 0 0 0 None.

(** How [startSession] leaves its loop: the completion message, the
    user's [q], or still waiting at the prompt when the answers given so
    far are used up. *)
Inductive ending : Type :=
  | AllCompleted
  | QuitByUser
  | AwaitingAnswer.

(** [['y', 'yes', 'n', 'no'].includes(answer)] and
    [['y', 'yes'].includes(answer)]. *)
Definition is_answer (answer : string) : bool :=
  bool_decide (answer ∈ ["y"; "yes"; "n"; "no"]).

Definition is_yes (answer : string) : bool :=
  bool_decide (answer ∈ ["y"; "yes"]).

(** The counters after one answered phrase. *)
Definition count_answer (done : bool) (st : sessionStats) : sessionStats :=
  if done
  then MkStats (total st + 1) (completed st + 1) (skipped st) (startTime st)
  else MkStats (total st + 1) (completed st) (skipped st + 1) (startTime st).

(** The [while (true)] loop of [startSession] with its inner prompt loop.
    [answers] are the values [askQuestion] resolves with, in order (they
    are already trimmed and lower-cased); [clk t] is the time of the
    status update made when [sessionStats.total] is [t]. *)
Fixpoint session_loop (clk : Z -> Z) (answers : list string) (db : DB)
    (st : sessionStats) {struct answers} : ending * DB * sessionStats :=
  match PhraseDB.getNextPhrase db with
  | None => (AllCompleted, db, st)
  | Some phrase =>
      (fix ask (pending : list string) : ending * DB * sessionStats :=
         match pending with
         | [] => (AwaitingAnswer, db, st)
         | answer :: rest =>
             if String.eqb answer "q" then (QuitByUser, db, st)
             else if is_answer answer then
               let done := is_yes answer in
               let db' :=
                 (PhraseDB.updateStatus (clk (total st)) (Row.id phrase)
                    done db).1 in
               session_loop clk rest db' (count_answer done st)
             else ask rest
         end) answers
  end.

(** [startSession]: records the start time and runs the loop. *)
Definition startSession (clk : Z -> Z) (start : Z) (answers : list string)
    (db : DB) (st : sessionStats) : ending * DB * sessionStats :=
  session_loop clk answers db
    (MkStats (total st) (completed st) (skipped st) (Some start)).

End CLI.

(** ** Further notions used in the statements *)

(** The columns of a row that no statement of the program writes after
    the INSERT. *)
Definition core (r : Row.t) : Z * string * string * string * Z :=
  (Row.id r, Row.ru r, Row.en r, Row.level r, Row.created_at r).

(** The numbers of incomplete and of complete records. *)
Definition pending (db : DB) : nat :=
  length (List.filter (fun r => Row.completed r =? 0) (phrases db)).

Definition learned (db : DB) : nat :=
  length (List.filter (fun r => Row.completed r =? 1) (phrases db)).

(** The text starts with the NUL character. *)
Definition leading_NUL (s : string) : bool :=
  match s with
  | EmptyString => false
  | String c _ => byte_of c =? 0
  end.

(** The rowids are in increasing order, positive and not above the
    counter, which is not above the largest rowid. *)
Definition ids_ok (db : DB) : Prop :=
  StronglySorted Z.lt (map Row.id (phrases db))
  ∧ Forall (fun i => 0 < i <= sqlite_sequence db) (map Row.id (phrases db))
  ∧ 0 <= sqlite_sequence db <= MAX_ROWID.

(** A row as an INSERT at some time leaves it, with an id above [bound]. *)
Definition new_row (bound : Z) (r : Row.t) : Prop :=
  bound < Row.id r
  ∧ Row.completed r = 0
  ∧ Row.updated_at r = Row.created_at r.

(** The largest rowid the table ever held, as the INSERT computes it. *)
Definition last_rowid (db : DB) : Z :=
  Z.max (max_rowid (phrases db)) (sqlite_sequence db).

(** The exit code of the setup script after an import. *)
Definition exit_code (o : outcome) : Z :=
  match o with
  | Thrown _ => 1
  | _ => 0
  end.

(** ** The parsed document as JavaScript has it (db.js lines 129-163)

    [JSON.parse] yields arbitrary values, not only objects with three
    string properties.  This section models the document and the import
    on it, value by value.  [Candidate.t] above is the view of an element
    whose properties are missing or well-formed strings, and on such
    documents the two imports are the same function (see
    [Parsed_import_of_candidates] below). *)

(** One unit of a JavaScript string.  A string is kept as the UTF-8 bytes
    of its well-formed parts, with every surrogate that is not part of a
    pair kept as such. *)
Inductive jschar : Type :=
  | Byte (a : ascii)
  | Lone (surrogate : Z).

#[global] Instance jschar_eq_dec : EqDecision jschar.
Proof. solve_decision. Defined.

#[global] Instance jschar_countable : Countable jschar :=
  inj_countable'
    (fun c => match c with Byte a => inl a | Lone u => inr u end)
    (fun x => match x with inl a => Byte a | inr u => Lone u end)
    (fun c => match c with Byte _ => eq_refl | Lone _ => eq_refl end).

(** A TEXT value read into a JavaScript string. *)
Definition of_text (t : string) : list jschar :=
  map Byte (list_ascii_of_string t).

(** A JavaScript string bound as TEXT: the conversion to UTF-8 writes
    U+FFFD (bytes EF BF BD) for a lone surrogate. *)
Fixpoint to_text (s : list jschar) : string :=
  match s with
  | [] => EmptyString
  | Byte a :: rest => String a (to_text rest)
  | Lone _ :: rest =>
      String "239" (String "191" (String "189" (to_text rest)))
  end.

(** A JSON number, through what the program observes of it: whether it
    is zero, the text JavaScript prints for it, and the text SQLite
    stores when the number is bound as REAL into a TEXT column (for 5
    these are "5" and "5.0", for 1e21 "1e+21" and "1.0e+21", for 1.5
    both are "1.5"). *)
Record jsnumber : Type := MkNumber {
  is_zero : bool;
  js_text : string;
  sql_text : string
}.

(** The value of a property: missing, or a JSON value.  Of an object
    the program observes only whether it has a [toString] property of
    its own: a template literal prints "[object Object]" for an object
    without one and throws for an object with one, since no JSON value
    is a function. *)
#[local] Unset Elimination Schemes.
Inductive jsvalue : Type :=
  | JUndefined
  | JNull
  | JBool (b : bool)
  | JNumber (n : jsnumber)
  | JString (s : list jschar)
  | JArray (elems : list jsvalue)
  | JObject (own_toString : bool).
#[local] Set Elimination Schemes.

(** The three properties that the import reads. *)
Module Item.
Record t : Type := Make {
  ru : jsvalue;
  en : jsvalue;
  level : jsvalue
}.
End Item.

(** An element of the array: [null], or a value whose properties can be
    read (a number, a boolean, a string or an array has none of the
    three). *)
Inductive element : Type :=
  | ENull
  | EObject (p : Item.t).

Inductive document : Type :=
  | Doc_array (elems : list element)
  | Doc_other.

(** What [run] binds to a parameter. *)
Inductive bound : Type :=
  | BoundText (t : string)
  | BoundNull.

Module Parsed.

(** JavaScript truthiness. *)
Definition truthy (v : jsvalue) : bool :=
  match v with
  | JUndefined | JNull => false
  | JBool b => b
  | JNumber n => negb (is_zero n)
  | JString s => negb (bool_decide (s = []))
  | JArray _ | JObject _ => true
  end.

(** [LEVELS.includes(p.level)]: only a string equal to one of the six. *)
Definition LEVELS_includes (v : jsvalue) : bool :=
  match v with
  | JString s => bool_decide (s ∈ map of_text LEVELS)
  | _ => false
  end.

Definition is_valid (p : Item.t) : bool :=
  truthy (Item.ru p) && truthy (Item.en p) && LEVELS_includes (Item.level p).

(** [phrases.filter(...)]: reading a property of [null] throws. *)
Fixpoint validPhrases_of (elems : list element) : result (list Item.t) :=
  match elems with
  | [] => Ok []
  | ENull :: _ => Err TypeError
  | EObject p :: rest =>
      match validPhrases_of rest with
      | Err e => Err e
      | Ok kept => Ok (if is_valid p then p :: kept else kept)
      end
  end.

(** A template-literal substitution; [None] when it throws.  An array
    prints its elements joined by commas, [null] as the empty string. *)
Fixpoint to_string (v : jsvalue) : option (list jschar) :=
  match v with
  | JUndefined => Some (of_text "undefined")
  | JNull => Some (of_text "null")
  | JBool true => Some (of_text "true")
  | JBool false => Some (of_text "false")
  | JNumber n => Some (of_text (js_text n))
  | JString s => Some s
  | JArray elems =>
      (fix join (l : list jsvalue) : option (list jschar) :=
         match l with
         | [] => Some []
         | x :: rest =>
             let text :=
               match x with
               | JUndefined | JNull => Some []
               | _ => to_string x
               end in
             match rest with
             | [] => text
             | _ :: _ =>
                 match text, join rest with
                 | Some a, Some b => Some (a ++ of_text "," ++ b)
                 | _, _ => None
                 end
             end
         end) elems
  | JObject own_toString =>
      if own_toString then None else Some (of_text "[object Object]")
  end.

Definition key (ru en level : list jschar) : list jschar :=
  ru ++ of_text "|" ++ en ++ of_text "|" ++ level.

(** The template [${phrase.ru}|${phrase.en}|${phrase.level}]. *)
Definition item_key (p : Item.t) : option (list jschar) :=
  match to_string (Item.ru p), to_string (Item.en p),
        to_string (Item.level p) with
  | Some r, Some e, Some l => Some (key r e l)
  | _, _, _ => None
  end.

(** [new Set(existing.map(...))] over the rows read from the table. *)
Definition existingSet_of (existing : list (string * string * string))
  : gset (list jschar) :=
  list_to_set
    (map (fun t => key (of_text t.1.1) (of_text t.1.2) (of_text t.2))
         existing).

(** How one value is bound to a parameter: a string as TEXT, a number
    as REAL (which the TEXT column stores as text), [null] and
    [undefined] as NULL; anything else cannot be bound. *)
Definition bind_value (v : jsvalue) : result bound :=
  match v with
  | JString s => Ok (BoundText (to_text s))
  | JNumber n => Ok (BoundText (sql_text n))
  | JNull | JUndefined => Ok BoundNull
  | JBool _ | JArray _ | JObject _ => Err TypeError
  end.

(** The three parameters of the statement. *)
Definition param_count : nat := 3.

(** An array among the arguments of [run] stands for its elements, each
    bound to the next parameter; [acc] holds what is bound so far. *)
Fixpoint bind_array (vs : list jsvalue) (acc : list bound)
  : result (list bound) :=
  match vs with
  | [] => Ok acc
  | v :: rest =>
      match bind_value v with
      | Err e => Err e
      | Ok b =>
          if (param_count <=? length acc)%nat then Err RangeError
          else bind_array rest (acc ++ [b])
      end
  end.

(** The arguments of [run], left to right.  An array is spread over the
    next parameters; an object is taken for a set of named parameters, of
    which the statement has none, and only one such object is allowed;
    any other value is bound to the next parameter.  In the end every
    parameter must be bound. *)
Fixpoint bind_args (args : list jsvalue) (named : bool) (acc : list bound)
  : result (list bound) :=
  match args with
  | [] => if (length acc =? param_count)%nat then Ok acc else Err RangeError
  | JArray vs :: rest =>
      match bind_array vs acc with
      | Err e => Err e
      | Ok acc' => bind_args rest named acc'
      end
  | JObject _ :: rest =>
      if named then Err TypeError else bind_args rest true acc
  | v :: rest =>
      match bind_value v with
      | Err e => Err e
      | Ok b =>
          if (param_count <=? length acc)%nat then Err RangeError
          else bind_args rest named (acc ++ [b])
      end
  end.

(** The three texts of the bound parameters, when none is NULL. *)
Definition texts_of (bs : list bound) : option (string * string * string) :=
  match bs with
  | [BoundText r; BoundText e; BoundText l] => Some (r, e, l)
  | _ => None
  end.

(** The parameters bound by [run(phrase.ru, phrase.en, phrase.level)]. *)
Definition bound_args (p : Item.t) : result (list bound) :=
  bind_args [Item.ru p; Item.en p; Item.level p] false [].

(** [insertPhrase.run(phrase.ru, phrase.en, phrase.level)]: the
    arguments are bound, then the statement runs; a NULL violates the
    NOT NULL constraint of its column. *)
Definition run_insert (now : Z) (p : Item.t) (db : DB) : result DB :=
  match bound_args p with
  | Err e => Err e
  | Ok bs =>
      match texts_of bs with
      | Some (r, e, l) => statements.insertPhrase now r e l db
      | None => Err (SqliteError SQLITE_CONSTRAINT_NOTNULL)
      end
  end.

(** The body of [insertTx] on the kept items. *)
Fixpoint insertTx_body (clk : nat -> Z) (existingSet : gset (list jschar))
    (n : nat) (todo : list Item.t) (st : loop_state)
  : result loop_state :=
  match todo with
  | [] => Ok st
  | phrase :: rest =>
      match item_key phrase with
      | None => Err TypeError
      | Some key =>
          if bool_decide (key ∈ existingSet)
          then insertTx_body clk existingSet (S n) rest
                 (MkLoop (ls_db st) (ls_inserted st) (ls_skipped st + 1))
          else
            match run_insert (clk n) phrase (ls_db st) with
            | Err e => Err e
            | Ok db' =>
                insertTx_body clk existingSet (S n) rest
                  (MkLoop db' (ls_inserted st + 1) (ls_skipped st))
            end
      end
  end.

(** [importPhrases] on the parsed document. *)
Definition importPhrases (clk : nat -> Z) (parsed : document) (db : DB)
  : DB * outcome :=
  match parsed with
  | Doc_other => (db, Thrown Error_not_array)
  | Doc_array elems =>
      match validPhrases_of elems with
      | Err e => (db, Thrown e)
      | Ok validPhrases =>
          if (length validPhrases =? 0)%nat then (db, Warned)
          else
            let existing := statements.getAllPhrases db in
            let existingSet := existingSet_of existing in
            match transaction
                    (insertTx_body clk existingSet 0 validPhrases)
                    (MkLoop db 0 0) with
            | (db', Ok st) =>
                (db', Reported (ls_inserted st) (ls_skipped st))
            | (db', Err e) => (db', Thrown e)
            end
      end
  end.

End Parsed.

(** ** Candidates as elements of the parsed document *)

Definition value_of (v : option string) : jsvalue :=
  match v with
  | Some t => JString (of_text t)
  | None => JUndefined
  end.

Definition item_of (c : Candidate.t) : Item.t :=
  Item.Make (value_of (Candidate.ru c)) (value_of (Candidate.en c))
            (value_of (Candidate.level c)).

Definition document_of (parsed : json) : document :=
  match parsed with
  | JSON_array elems => Doc_array (map (fun c => EObject (item_of c)) elems)
  | JSON_other => Doc_other
  end.

(** ** The setup script (init-db.js lines 26-135) *)

(** [sampleData] of [createSampleFile]. *)
Definition sampleData : list Candidate.t :=
  [ Candidate.Make (Some "Привет") (Some "Hello") (Some "A1");
    Candidate.Make (Some "Как дела?") (Some "How are you?") (Some "A1");
    Candidate.Make (Some "Спасибо") (Some "Thank you") (Some "A1");
    Candidate.Make (Some "Пожалуйста") (Some "You are welcome") (Some "A1");
    Candidate.Make (Some "Меня зовут...") (Some "My name is...") (Some "A1");
    Candidate.Make (Some "Где туалет?") (Some "Where is the toilet?")
                   (Some "A2");
    Candidate.Make (Some "Сколько это стоит?")
                   (Some "How much does it cost?") (Some "A2");
    Candidate.Make (Some "Я не понимаю") (Some "I don't understand")
                   (Some "A2");
    Candidate.Make (Some "Могу я помочь вам?") (Some "Can I help you?")
                   (Some "B1");
    Candidate.Make (Some "Это зависит от обстоятельств")
                   (Some "It depends on the circumstances") (Some "B2") ].

(** The phrases file: absent, or present with a text that [JSON.parse]
    rejects ([None]) or accepts. *)
Inductive phrases_file : Type :=
  | FileMissing
  | FileContent (parsed : option document).

(** The file that [createSampleFile] writes. *)
Definition sample_file : phrases_file :=
  FileContent (Some (document_of (JSON_array sampleData))).

(** [initDatabase] after [initDB]: the file and the store it leaves, and
    the exit code of the process.  A missing file is created from
    [sampleData] and not imported in this run. *)
Definition initDatabase (clk : nat -> Z) (file : phrases_file) (db : DB)
  : phrases_file * DB * Z :=
  match file with
  | FileMissing => (sample_file, db, 0)
  | FileContent None => (file, db, 1)
  | FileContent (Some parsed) =>
      match Parsed.importPhrases clk parsed db with
      | (db', Thrown _) => (file, db', 1)
      | (db', _) => (file, db', 0)
      end
  end.

(** ** Notions used in the statements about the parsed document *)

(** Some element of the array is [null]. *)
Definition has_null (elems : list element) : bool :=
  existsb (fun e => match e with ENull => true | EObject _ => false end)
          elems.

(** The elements of the array that are not [null]. *)
Fixpoint objects_of (elems : list element) : list Item.t :=
  match elems with
  | [] => []
  | ENull :: rest => objects_of rest
  | EObject p :: rest => p :: objects_of rest
  end.

(** The candidates that pass the filter, in the order of the array. *)
Definition kept_of (elems : list element) : list Item.t :=
  List.filter Parsed.is_valid (objects_of elems).

(** The keys of the records of the store, as the import builds them. *)
Definition stored_keys (db : DB) : gset (list jschar) :=
  Parsed.existingSet_of (statements.getAllPhrases db).

(** The loop skips the item: its key is in the set. *)
Definition skipped_by (ex : gset (list jschar)) (p : Item.t) : bool :=
  match Parsed.item_key p with
  | Some k => bool_decide (k ∈ ex)
  | None => false
  end.

(** The kept items that the loop does not skip. *)
Definition fresh_items (ex : gset (list jschar)) (todo : list Item.t)
  : list Item.t :=
  List.filter (fun p => negb (skipped_by ex p)) todo.

(** The triple that a successful insert of the item stores. *)
Definition stored_triple (p : Item.t) : option (string * string * string) :=
  match Parsed.bound_args p with
  | Ok bs => Parsed.texts_of bs
  | Err _ => None
  end.

(** The error with which the insert of an item fails when the rowid
    counter has room: the arguments cannot be bound, a NULL is bound, or
    a stored text fails its CHECK (a text of SQL length 0, that is one
    starting with NUL, or a level that is not one of the six). *)
Definition insert_failure (p : Item.t) : option js_error :=
  match Parsed.bound_args p with
  | Err e => Some e
  | Ok bs =>
      match Parsed.texts_of bs with
      | Some (r, e, l) =>
          if check_ru r && check_en e && check_level l then None
          else Some (SqliteError SQLITE_CONSTRAINT_CHECK)
      | None => Some (SqliteError SQLITE_CONSTRAINT_NOTNULL)
      end
  end.

(** The error of the first item, in processing order, at which the loop
    stops when the rowid counter has room: an item whose key cannot be
    built, or one that is not skipped and cannot be stored. *)
Fixpoint first_failure (ex : gset (list jschar)) (todo : list Item.t)
  : option js_error :=
  match todo with
  | [] => None
  | p :: rest =>
      match Parsed.item_key p with
      | None => Some TypeError
      | Some _ =>
          if skipped_by ex p then first_failure ex rest
          else
            match insert_failure p with
            | Some e => Some e
            | None => first_failure ex rest
            end
      end
  end.

(** The item is looked up under the key of what is stored for it: the
    key built from its stored texts is the key built from the item.  An
    item that cannot be stored has nothing to compare. *)
Definition reads_back (p : Item.t) : bool :=
  match stored_triple p with
  | Some t =>
      bool_decide
        (Parsed.item_key p
         = Some (Parsed.key (of_text t.1.1) (of_text t.1.2) (of_text t.2)))
  | None => true
  end.

(** A string property, or a missing one. *)
Definition string_or_missing (v : jsvalue) : bool :=
  match v with
  | JString _ | JUndefined => true
  | _ => false
  end.

(** Every kept candidate of the file is looked up under the key of what
    is stored for it. *)
Definition file_reads_back (file : phrases_file) : Prop :=
  match file with
  | FileContent (Some (Doc_array elems)) =>
      forallb reads_back (kept_of elems) = true
  | _ => True
  end.

(** Arrays used in the examples: a text that starts with NUL, a number
    as text, a string with a lone surrogate, a boolean as text next to a
    well-formed candidate, and a [null] element next to one. *)
Definition good_item : Item.t :=
  Item.Make (JString (of_text "Привет")) (JString (of_text "Hello"))
            (JString (of_text "A1")).

Definition nul_elems : list element :=
  [ EObject (Item.Make (JString (of_text (String Ascii.zero "x")))
                       (JString (of_text "y")) (JString (of_text "A1"))) ].

Definition number_elems : list element :=
  [ EObject (Item.Make (JNumber (MkNumber false "1e+21" "1.0e+21"))
                       (JString (of_text "x")) (JString (of_text "A1"))) ].

Definition surrogate_elems : list element :=
  [ EObject (Item.Make (JString [Byte "a"; Lone 55357])
                       (JString (of_text "x")) (JString (of_text "A1"))) ].

Definition boolean_elems : list element :=
  [ EObject good_item;
    EObject (Item.Make (JBool true) (JString (of_text "x"))
                       (JString (of_text "A1"))) ].

Definition null_elems : list element :=
  [ EObject good_item; ENull ].

(** An array with one string as [ru], an object as [ru], and an array
    with two strings as [ru] next to an empty array as [en]. *)
Definition array_elems : list element :=
  [ EObject (Item.Make (JArray [JString (of_text "a")])
                       (JString (of_text "x")) (JString (of_text "A1"))) ].

Definition object_elems : list element :=
  [ EObject (Item.Make (JObject false) (JString (of_text "x"))
                       (JString (of_text "A1"))) ].

Definition spread_elems : list element :=
  [ EObject (Item.Make (JArray [JString (of_text "a");
                                JString (of_text "b")])
                       (JArray []) (JString (of_text "A1"))) ].

(** * Proof automation *)

(** Case analysis on the integer comparisons in sight. *)
Ltac bool_cases :=
  repeat match goal with
    | |- context [?x <? ?y] => destruct (Z.ltb_spec x y)
    | |- context [?x <=? ?y] => destruct (Z.leb_spec x y)
    | H : context [?x <? ?y] |- _ => destruct (Z.ltb_spec x y)
    | H : context [?x <=? ?y] |- _ => destruct (Z.leb_spec x y)
    end;
  simpl in *; try done; try lia.

(** * The model at work *)

Example getNextPhrase_sample :
  PhraseDB.getNextPhrase sample_db = Some (Row.Make 3 "e" "f" "A1" 0 12 12).
Proof. reflexivity. Qed.

(** Rows with equal level and time come in rowid order. *)
Example getNextPhrase_tie :
  Row.id <$> PhraseDB.getNextPhrase
               (run [ CallInsert 5 "a" "b" "A1"; CallInsert 5 "c" "d" "A1";
                      CallInsert 5 "e" "f" "A1" ] empty_db)
  = Some 1.
Proof. reflexivity. Qed.

Example getStats_sample :
  PhraseDB.getStats sample_db
  = [ Stat.Make "A1" 2 1 1; Stat.Make "B1" 1 0 1; Stat.Make "C2" 1 0 1 ].
Proof. reflexivity. Qed.

Example updateStatus_unknown_id :
  PhraseDB.updateStatus 30 7 true sample_db
  = (sample_db, PhraseDB.MkStatus 7 0).
Proof. reflexivity. Qed.

Example updateStatus_known_id :
  (PhraseDB.updateStatus 30 3 true sample_db).2 = PhraseDB.MkStatus 3 1
  ∧ PhraseDB.getNextPhrase (PhraseDB.updateStatus 30 3 true sample_db).1
    = Some (Row.Make 1 "a" "b" "B1" 0 10 10).
Proof. split; reflexivity. Qed.

Example insert_empty_ru_rejected :
  statements.insertPhrase 0 "" "Hello" "A1" sample_db
  = Err (SqliteError SQLITE_CONSTRAINT_CHECK).
Proof. reflexivity. Qed.

(** [length] stops at the first NUL: a text that starts with NUL passes
    the JavaScript filter and fails the CHECK, and the whole batch is
    rolled back. *)
Example import_rolls_back :
  PhraseDB.importPhrases (fun _ => 0)
    (JSON_array
       [ Candidate.Make (Some "Привет") (Some "Hello") (Some "A1");
         Candidate.Make (Some (String Ascii.zero "x")) (Some "y") (Some "A1") ])
    empty_db
  = (empty_db, Thrown (SqliteError SQLITE_CONSTRAINT_CHECK)).
Proof. vm_compute. reflexivity. Qed.

Example import_nothing_valid :
  PhraseDB.importPhrases (fun _ => 0)
    (JSON_array [Candidate.Make (Some "X") (Some "Y") (Some "Z9")]) sample_db
  = (sample_db, Warned).
Proof. reflexivity. Qed.

(** * Basic facts *)

Lemma elem_of_map {A B} (f : A → B) (l : list A) (y : B) :
  y ∈ map f l ↔ ∃ x, y = f x ∧ x ∈ l.
Proof.
  rewrite list_elem_of_In, in_map_iff. split.
  - intros (x & <- & Hx). exists x. by rewrite list_elem_of_In.
  - intros (x & -> & Hx). exists x. by rewrite <- list_elem_of_In.
Qed.

Lemma elem_of_filter_bool {A} (f : A → bool) (l : list A) (x : A) :
  x ∈ List.filter f l ↔ x ∈ l ∧ f x = true.
Proof. by rewrite !list_elem_of_In, filter_In. Qed.

Lemma row_key_candidate_triple p : row_key (candidate_triple p) = candidate_key p.
Proof. reflexivity. Qed.

Lemma elem_of_existingSet_of k existing :
  k ∈ existingSet_of existing ↔ ∃ t, t ∈ existing ∧ row_key t = k.
Proof.
  unfold existingSet_of. rewrite elem_of_list_to_set, elem_of_map.
  split; intros (t & H1 & H2); exists t; auto.
Qed.

Lemma max_rowid_cons r rows :
  max_rowid (r :: rows) = Z.max (Row.id r) (max_rowid rows).
Proof. reflexivity. Qed.

Lemma max_rowid_nonneg rows : 0 <= max_rowid rows.
Proof.
  induction rows as [|r rows IH]; [done|]. rewrite max_rowid_cons. lia.
Qed.

Lemma max_rowid_app rows rows' :
  max_rowid (rows ++ rows') = Z.max (max_rowid rows) (max_rowid rows').
Proof.
  induction rows as [|r rows IH].
  - pose proof (max_rowid_nonneg rows'). change (max_rowid []) with 0.
    rewrite app_nil_l. lia.
  - rewrite <- app_comm_cons, !max_rowid_cons, IH. lia.
Qed.

Lemma max_rowid_ids rows rows' :
  map Row.id rows = map Row.id rows' → max_rowid rows = max_rowid rows'.
Proof.
  revert rows'. induction rows as [|r rows IH]; intros [|r' rows'];
    try discriminate; [done|].
  cbn [map]. intros [= Hid Hrest]. rewrite !max_rowid_cons, Hid.
  by rewrite (IH _ Hrest).
Qed.

Lemma max_rowid_ge rows r : r ∈ rows → Row.id r <= max_rowid rows.
Proof.
  induction 1 as [r rows|r r' rows _ IH]; rewrite max_rowid_cons; lia.
Qed.

(** What a successful INSERT does. *)
Lemma insertPhrase_Ok now ru en level db db' :
  statements.insertPhrase now ru en level db = Ok db' →
  ∃ i, phrases db' = phrases db ++ [Row.Make i ru en level 0 now now]
       ∧ max_rowid (phrases db) < i
       ∧ check_ru ru = true ∧ check_en en = true ∧ check_level level = true.
Proof.
  unfold statements.insertPhrase.
  destruct (check_ru ru) eqn:Hr, (check_en en) eqn:He,
    (check_level level) eqn:Hl; simpl; try discriminate.
  destruct (MAX_ROWID <=? _); [discriminate|]. intros [= <-]; simpl.
  eexists; repeat split; lia.
Qed.

(** * The import loop *)

Lemma fresh_of_cons ex p todo :
  fresh_of ex (p :: todo)
  = if in_snapshot ex p then fresh_of ex todo else p :: fresh_of ex todo.
Proof. unfold fresh_of; simpl. by destruct (in_snapshot ex p). Qed.

Lemma dup_of_cons ex p todo :
  dup_of ex (p :: todo)
  = if in_snapshot ex p then p :: dup_of ex todo else dup_of ex todo.
Proof. reflexivity. Qed.

Lemma insertTx_body_Ok clk ex todo : ∀ n st st',
  insertTx_body clk ex n todo st = Ok st' →
  ls_inserted st' = ls_inserted st + Z.of_nat (length (fresh_of ex todo))
  ∧ ls_skipped st' = ls_skipped st + Z.of_nat (length (dup_of ex todo))
  ∧ ∃ news,
      phrases (ls_db st') = phrases (ls_db st) ++ news
      ∧ map (fun r => (Row.ru r, Row.en r, Row.level r)) news
        = map candidate_triple (fresh_of ex todo)
      ∧ Forall (inserted_after (phrases (ls_db st))) news.
Proof.
  induction todo as [|p todo IH]; intros n st st'.
  - simpl. intros [= <-]. split; [|split]; try (simpl; lia).
    exists []. by rewrite app_nil_r.
  - cbn [insertTx_body]. fold (in_snapshot ex p).
    rewrite fresh_of_cons, dup_of_cons.
    destruct (in_snapshot ex p) eqn:Hin.
    + intros H. apply IH in H as (Hi & Hs & news & Hn & Hm & Hf).
      cbn [ls_db ls_inserted ls_skipped] in *.
      split; [|split]; [lia | rewrite length_cons; lia |].
      by exists news.
    + unfold run_insert.
      destruct (Candidate.ru p) as [r|] eqn:Hr; [|discriminate].
      destruct (Candidate.en p) as [e|] eqn:He; [|discriminate].
      destruct (Candidate.level p) as [l|] eqn:Hl; [|discriminate].
      destruct (statements.insertPhrase _ r e l _) as [db1|] eqn:Hins;
        [|discriminate].
      intros H. apply IH in H as (Hi & Hs & news & Hn & Hm & Hf).
      cbn [ls_db ls_inserted ls_skipped] in *.
      apply insertPhrase_Ok in Hins as (i & Hrows & Hi' & Hc1 & Hc2 & Hc3).
      split; [|split]; [rewrite length_cons; lia | lia |].
      exists (Row.Make i r e l 0 (clk n) (clk n) :: news).
      split; [|split].
      * rewrite Hn, Hrows, <- app_assoc. reflexivity.
      * cbn [map]. f_equal; [|exact Hm].
        unfold candidate_triple. by rewrite Hr, He, Hl.
      * constructor; [by repeat split|].
        eapply Forall_impl; [exact Hf|]. intros x (Hx & ?).
        split; [|done]. rewrite Hrows, max_rowid_app in Hx. lia.
Qed.

(** When every key is already in the set the loop only counts. *)
Lemma insertTx_body_all_dup clk ex todo : ∀ n st,
  Forall (fun p => in_snapshot ex p = true) todo →
  insertTx_body clk ex n todo st
  = Ok (MkLoop (ls_db st) (ls_inserted st)
               (ls_skipped st + Z.of_nat (length todo))).
Proof.
  induction todo as [|p todo IH]; intros n st Hall.
  - destruct st; simpl. do 2 f_equal. lia.
  - inversion Hall as [|? ? Hp Hrest]; subst.
    cbn [insertTx_body]. fold (in_snapshot ex p). rewrite Hp, IH by done.
    cbn [ls_db ls_inserted ls_skipped]. rewrite length_cons.
    do 2 f_equal. lia.
Qed.

(** The shape of a completed import. *)
Lemma importPhrases_Reported clk elems db db' ins sk :
  PhraseDB.importPhrases clk (JSON_array elems) db = (db', Reported ins sk) →
  validPhrases_of elems ≠ []
  ∧ insertTx_body clk (snapshot db) 0 (validPhrases_of elems) (MkLoop db 0 0)
    = Ok (MkLoop db' ins sk).
Proof.
  unfold PhraseDB.importPhrases, transaction. cbv zeta. fold (snapshot db).
  destruct (validPhrases_of elems) as [|p ps] eqn:Hv.
  - cbn [length Nat.eqb]. discriminate.
  - cbn [length Nat.eqb].
    destruct (insertTx_body clk (snapshot db) 0 (p :: ps) (MkLoop db 0 0))
      as [[d i k]|] eqn:Hbody; [|discriminate].
    cbn [ls_db ls_inserted ls_skipped]. by intros [= <- <- <-].
Qed.

Lemma importPhrases_counts clk elems db db' ins sk :
  PhraseDB.importPhrases clk (JSON_array elems) db = (db', Reported ins sk) →
  ins = Z.of_nat (length (fresh_of (snapshot db) (validPhrases_of elems)))
  ∧ sk = Z.of_nat (length (dup_of (snapshot db) (validPhrases_of elems)))
  ∧ ∃ news,
      phrases db' = phrases db ++ news
      ∧ map (fun r => (Row.ru r, Row.en r, Row.level r)) news
        = map candidate_triple (fresh_of (snapshot db) (validPhrases_of elems))
      ∧ Forall (inserted_after (phrases db)) news.
Proof.
  intros H. apply importPhrases_Reported in H as [_ H].
  apply insertTx_body_Ok in H. cbn [ls_db ls_inserted ls_skipped] in H.
  destruct H as (Hi & Hs & Hn). split; [lia|]. split; [lia|]. exact Hn.
Qed.

(** An import that does not complete leaves the store as it was. *)
Lemma importPhrases_not_Reported clk parsed db :
  (∀ ins sk, (PhraseDB.importPhrases clk parsed db).2 ≠ Reported ins sk) →
  (PhraseDB.importPhrases clk parsed db).1 = db.
Proof.
  destruct parsed as [elems|]; [|done].
  unfold PhraseDB.importPhrases, transaction. cbv zeta.
  destruct (length (validPhrases_of elems) =? 0)%nat; [done|].
  destruct (insertTx_body _ _ _ _ _) as [st|]; [|done].
  intros H. by destruct (H (ls_inserted st) (ls_skipped st)).
Qed.

(** ** Validity of a candidate *)

Lemma truthy_Some_iff v : truthy v = true ↔ ∃ s, v = Some s ∧ s ≠ "".
Proof.
  destruct v as [s|]; simpl.
  - rewrite negb_true_iff, String.eqb_neq. split.
    + intros H. by exists s.
    + by intros (s' & [= <-] & H).
  - split; [discriminate | by intros (s & ? & _)].
Qed.

Lemma LEVELS_includes_iff v :
  LEVELS_includes v = true ↔ ∃ l, v = Some l ∧ l ∈ LEVELS.
Proof.
  destruct v as [l|]; simpl.
  - rewrite bool_decide_eq_true. split.
    + intros H. by exists l.
    + by intros (l' & [= <-] & H).
  - split; [discriminate | by intros (s & ? & _)].
Qed.

Lemma is_valid_iff p :
  is_valid p = true ↔
  ∃ r e l, p = Candidate.Make (Some r) (Some e) (Some l)
           ∧ r ≠ "" ∧ e ≠ "" ∧ l ∈ LEVELS.
Proof.
  unfold is_valid. rewrite !andb_true_iff, !truthy_Some_iff, LEVELS_includes_iff.
  destruct p as [pr pe pl]; simpl. split.
  - intros [[(r & -> & Hr) (e & -> & He)] (l & -> & Hl)]. by exists r, e, l.
  - intros (r & e & l & [= -> -> ->] & Hr & He & Hl).
    split; [split|]; eauto.
Qed.

Lemma candidate_triple_inj p q :
  is_valid p = true → is_valid q = true →
  candidate_triple p = candidate_triple q → p = q.
Proof.
  rewrite !is_valid_iff.
  intros (r & e & l & -> & _) (r' & e' & l' & -> & _).
  unfold candidate_triple; simpl. by intros [= -> -> ->].
Qed.

(** ** Counting occurrences *)

Lemma occurrences_app {A} `{EqDecision A} (x : A) l l' :
  occurrences x (l ++ l') = (occurrences x l + occurrences x l')%nat.
Proof. unfold occurrences. by rewrite List.filter_app, length_app. Qed.

Lemma occurrences_cons {A} `{EqDecision A} (x y : A) l :
  occurrences x (y :: l)
  = ((if bool_decide (y = x) then 1 else 0) + occurrences x l)%nat.
Proof. unfold occurrences; simpl. by destruct (bool_decide (y = x)). Qed.

Lemma occurrences_none {A} `{EqDecision A} (x : A) l :
  x ∉ l → occurrences x l = 0%nat.
Proof.
  induction l as [|y l IH]; [done|]. rewrite not_elem_of_cons.
  intros [Hne Hnot]. rewrite occurrences_cons, IH by done.
  by rewrite bool_decide_eq_false_2.
Qed.

Lemma occurrences_filter {A} `{EqDecision A} (f : A → bool) (x : A) l :
  f x = true → occurrences x (List.filter f l) = occurrences x l.
Proof.
  intros Hx. induction l as [|y l IH]; [done|]. simpl.
  destruct (f y) eqn:Hy.
  - by rewrite !occurrences_cons, IH.
  - rewrite occurrences_cons, IH.
    rewrite bool_decide_eq_false_2; [done|]. intros ->. congruence.
Qed.

Lemma occurrences_triple p l :
  is_valid p = true → Forall (fun q => is_valid q = true) l →
  occurrences (candidate_triple p) (map candidate_triple l) = occurrences p l.
Proof.
  intros Hp. induction 1 as [|q l Hq _ IH]; [done|]. cbn [map].
  rewrite !occurrences_cons, IH. f_equal.
  destruct (decide (q = p)) as [->|Hne].
  - by rewrite !bool_decide_eq_true_2.
  - rewrite !bool_decide_eq_false_2; [done..|].
    intros Heq. apply Hne. by apply candidate_triple_inj.
Qed.

Lemma validPhrases_of_valid elems :
  Forall (fun q => is_valid q = true) (validPhrases_of elems).
Proof.
  apply Forall_forall. intros q. unfold validPhrases_of.
  rewrite elem_of_filter_bool. by intros [_ ?].
Qed.

Lemma in_snapshot_iff db p :
  in_snapshot (snapshot db) p = true ↔
  ∃ t, t ∈ statements.getAllPhrases db ∧ row_key t = candidate_key p.
Proof.
  unfold in_snapshot, snapshot.
  by rewrite bool_decide_eq_true, elem_of_existingSet_of.
Qed.

Lemma in_snapshot_of_triple db p :
  candidate_triple p ∈ statements.getAllPhrases db →
  in_snapshot (snapshot db) p = true.
Proof. intros H. apply in_snapshot_iff. by exists (candidate_triple p). Qed.

Lemma getAllPhrases_after_import clk elems db db' ins sk :
  PhraseDB.importPhrases clk (JSON_array elems) db = (db', Reported ins sk) →
  statements.getAllPhrases db'
  = statements.getAllPhrases db
    ++ map candidate_triple (fresh_of (snapshot db) (validPhrases_of elems)).
Proof.
  intros H. apply importPhrases_counts in H as (_ & _ & news & Hn & Hm & _).
  unfold statements.getAllPhrases. by rewrite Hn, map_app, Hm.
Qed.

Lemma fresh_dup_length ex (l : list Candidate.t) :
  (length (fresh_of ex l) + length (dup_of ex l))%nat = length l.
Proof.
  induction l as [|p l IH]; [done|].
  rewrite fresh_of_cons, dup_of_cons.
  destruct (in_snapshot ex p); rewrite !length_cons; lia.
Qed.

(** * The import pipeline *)

(** C1, as the code has it.  The key set is the snapshot taken before the
    loop and the loop never adds to it: a completed import skips exactly
    the valid candidates whose key is in the snapshot and inserts every
    other valid candidate, in order.  Hence a valid candidate whose key is
    not stored yet ends up stored once per occurrence in the batch (two
    identical candidates give two records), and one whose key is stored
    adds no record. *)
Theorem import_dedups_against_snapshot_only clk elems db db' ins sk :
  PhraseDB.importPhrases clk (JSON_array elems) db = (db', Reported ins sk) →
  ins = Z.of_nat (length (fresh_of (snapshot db) (validPhrases_of elems)))
  ∧ sk = Z.of_nat (length (dup_of (snapshot db) (validPhrases_of elems)))
  ∧ statements.getAllPhrases db'
    = statements.getAllPhrases db
      ++ map candidate_triple (fresh_of (snapshot db) (validPhrases_of elems))
  ∧ (∀ p, is_valid p = true → in_snapshot (snapshot db) p = false →
       occurrences (candidate_triple p) (statements.getAllPhrases db')
       = occurrences p elems)
  ∧ (∀ p, is_valid p = true → in_snapshot (snapshot db) p = true →
       occurrences (candidate_triple p) (statements.getAllPhrases db')
       = occurrences (candidate_triple p) (statements.getAllPhrases db)).
Proof.
  intros H. pose proof (getAllPhrases_after_import _ _ _ _ _ _ H) as Hall.
  apply importPhrases_counts in H as (Hi & Hs & _).
  split; [done|]. split; [done|]. split; [done|]. split.
  - intros p Hp Hin. rewrite Hall, occurrences_app.
    rewrite (occurrences_none _ (statements.getAllPhrases db)).
    + rewrite occurrences_triple; [|done|].
      * unfold fresh_of, validPhrases_of.
        rewrite !occurrences_filter; [done..|by rewrite Hin].
      * apply Forall_forall. intros q. unfold fresh_of.
        rewrite elem_of_filter_bool. intros [Hq _].
        revert q Hq. apply Forall_forall, validPhrases_of_valid.
    + intros Ht. apply in_snapshot_of_triple in Ht. congruence.
  - intros p Hp Hin. rewrite Hall, occurrences_app.
    rewrite (occurrences_none _ (map _ _)); [lia|].
    rewrite elem_of_map. intros (q & Heq & Hq).
    unfold fresh_of, validPhrases_of in Hq.
    rewrite !elem_of_filter_bool in Hq. destruct Hq as [[_ Hv] Hq].
    apply candidate_triple_inj in Heq; [|done..]. subst q.
    rewrite Hin in Hq. discriminate.
Qed.

Lemma import_dedups_against_snapshot_only_witness :
  PhraseDB.importPhrases (fun _ => 0) scenario empty_db
  = (scenario_db, Reported 2 0)
  ∧ 2 = Z.of_nat (length (fresh_of (snapshot empty_db)
                                   (validPhrases_of scenario_elems))).
Proof.
  split; [vm_compute; reflexivity|].
  apply (import_dedups_against_snapshot_only
           (fun _ => 0) scenario_elems empty_db scenario_db 2 0).
  vm_compute; reflexivity.
Defined.

(** C1, as stated, fails on the scenario of the specification: from the
    empty store the batch of two identical valid candidates and one
    invalid candidate reports inserted=2, skipped=0 and stores two
    records, not inserted=1, skipped=1. *)
Lemma scenario_inserts_both_copies :
  (PhraseDB.importPhrases (fun _ => 0) scenario empty_db).2 = Reported 2 0
  ∧ (PhraseDB.importPhrases (fun _ => 0) scenario empty_db).2 ≠ Reported 1 1
  ∧ length (phrases (PhraseDB.importPhrases (fun _ => 0) scenario empty_db).1)
    = 2%nat.
Proof. vm_compute. repeat split. discriminate. Qed.

(** ** Failures do not depend on the clock *)

Lemma insertPhrase_same_ids now now' ru en level db1 db2 :
  same_ids db1 db2 →
  match statements.insertPhrase now ru en level db1 with
  | Ok d1 => ∃ d2, statements.insertPhrase now' ru en level db2 = Ok d2
                   ∧ same_ids d1 d2
  | Err e => statements.insertPhrase now' ru en level db2 = Err e
  end.
Proof.
  intros [Hids Hseq]. unfold statements.insertPhrase.
  rewrite <- Hseq, <- (max_rowid_ids _ _ Hids).
  destruct (negb _); [done|]. destruct (MAX_ROWID <=? _); [done|].
  eexists; split; [done|]. split; cbn [phrases sqlite_sequence]; [|done].
  rewrite !map_app. by rewrite Hids.
Qed.

(** The scenario, imported twice. *)
Example import_idempotent_scenario :
  PhraseDB.importPhrases (fun _ => 0) scenario empty_db
  = (scenario_db, Reported 2 0)
  ∧ PhraseDB.importPhrases (fun _ => 7) scenario scenario_db
    = (scenario_db, Reported 0 2).
Proof. split; vm_compute; reflexivity. Qed.

(** The three invalid shapes the specification names. *)
Example invalid_missing_ru :
  is_valid (Candidate.Make None (Some "Hello") (Some "A1")) = false.
Proof. reflexivity. Qed.

Example invalid_missing_en :
  is_valid (Candidate.Make (Some "Привет") None (Some "A1")) = false.
Proof. reflexivity. Qed.

Example invalid_level_X9 :
  is_valid (Candidate.Make (Some "Привет") (Some "Hello") (Some "X9")) = false.
Proof. reflexivity. Qed.

(** ** The duplicate key *)


Lemma append_cons c a s : String c a +:+ s = String c (a +:+ s).
Proof. reflexivity. Qed.


(** * Selection of the next phrase *)

Lemma priority_le_total : Total priority_le.
Proof.
  intros p q. unfold priority_le, priority_leb.
  destruct (next_case (Row.level p)) as [x|], (next_case (Row.level q)) as [y|];
    simpl; bool_cases; auto.
Qed.

Lemma priority_le_trans : Transitive priority_le.
Proof.
  intros p q r. unfold priority_le, priority_leb.
  destruct (next_case (Row.level p)) as [x|], (next_case (Row.level q)) as [y|],
    (next_case (Row.level r)) as [z|]; simpl; intros H1 H2; bool_cases.
Qed.

Lemma next_case_LEVELS i l :
  LEVELS !! i = Some l → next_case l = Some (Z.of_nat i + 1).
Proof.
  do 6 (destruct i as [|i]; [by intros [= <-]|]). discriminate.
Qed.

Lemma head_insert_by_priority r sorted :
  head (insert_by_priority r sorted)
  = match head sorted with
    | None => Some r
    | Some r' => if priority_leb r r' then Some r else Some r'
    end.
Proof.
  destruct sorted as [|r' rest]; [done|]. cbn.
  by destruct (priority_leb r r').
Qed.

Lemma head_order_min (rows : list Row.t) q :
  head (order_by_priority rows) = Some q →
  q ∈ rows ∧ ∀ p, p ∈ rows → priority_le q p.
Proof.
  revert q. induction rows as [|r rows IH]; intros q; [discriminate|].
  cbn [order_by_priority fold_right]. fold (order_by_priority rows).
  rewrite head_insert_by_priority.
  assert (priority_le r r) as Hrefl by (by destruct (priority_le_total r r)).
  destruct (head (order_by_priority rows)) as [r'|] eqn:Hhead.
  - destruct (IH r' eq_refl) as [Hr' Hmin].
    destruct (priority_leb r r') eqn:Hle; intros [= <-].
    + split; [by left|]. intros p [->|Hp]%elem_of_cons; [done|].
      by apply (priority_le_trans r r' p), Hmin.
    + split; [by right|]. intros p [->|Hp]%elem_of_cons; [|by apply Hmin].
      destruct (priority_le_total r r') as [H|H]; [|done].
      unfold priority_le in H. congruence.
  - intros [= <-]. split; [by left|].
    destruct rows as [|r0 rows].
    + by intros p [->|[]%elem_of_nil]%elem_of_cons.
    + cbn [order_by_priority fold_right] in Hhead.
      rewrite head_insert_by_priority in Hhead.
      by repeat case_match.
Qed.

Lemma head_order_None (rows : list Row.t) :
  head (order_by_priority rows) = None ↔ rows = [].
Proof.
  split; [|by intros ->].
  destruct rows as [|r rows]; [done|].
  cbn [order_by_priority fold_right]. rewrite head_insert_by_priority.
  by repeat case_match.
Qed.

(** Among the rows that are first in the priority order, the one that
    comes first in the table is chosen. *)
Lemma head_order_first pre q post :
  (∀ p, p ∈ pre → priority_leb p q = false) →
  (∀ p, p ∈ post → priority_leb q p = true) →
  head (order_by_priority (pre ++ q :: post)) = Some q.
Proof.
  intros Hpre Hpost.
  assert (head (order_by_priority (q :: post)) = Some q) as Hq.
  { cbn [order_by_priority fold_right]. rewrite head_insert_by_priority.
    destruct (head (fold_right insert_by_priority [] post)) as [r'|] eqn:Hh;
      [|done].
    fold (order_by_priority post) in Hh.
    apply head_order_min in Hh as [Hr' _]. by rewrite Hpost. }
  induction pre as [|r pre IH]; [done|].
  rewrite <- app_comm_cons. cbn [order_by_priority fold_right].
  fold (order_by_priority (pre ++ q :: post)).
  rewrite head_insert_by_priority, IH.
  - rewrite Hpre; [done|by left].
  - intros p Hp. apply Hpre. by right.
Qed.

Lemma getNextPhrase_Some db q :
  PhraseDB.getNextPhrase db = Some q →
  q ∈ phrases db ∧ Row.completed q = 0
  ∧ ∀ p, p ∈ phrases db → Row.completed p = 0 → priority_le q p.
Proof.
  unfold PhraseDB.getNextPhrase, statements.getNextPhrase.
  intros [Hq Hmin]%head_order_min.
  apply elem_of_filter_bool in Hq as [Hq Hc].
  split; [done|]. split; [lia|]. intros p Hp Hpc.
  apply Hmin, elem_of_filter_bool. split; [done|lia].
Qed.

(** C4.  [getNextPhrase] answers "none" exactly when no record is
    incomplete.  Otherwise it returns an incomplete record [q] of the
    store that is first in the priority order among the incomplete
    records: whenever an incomplete record [p] is stored, [p]'s level does
    not come before [q]'s in A1, A2, B1, B2, C1, C2, and if the two levels
    are equal then [q] was not updated after [p]. *)
Theorem getNextPhrase_highest_priority db :
  (PhraseDB.getNextPhrase db = None
   ↔ ∀ r, r ∈ phrases db → Row.completed r ≠ 0)
  ∧ ∀ q, PhraseDB.getNextPhrase db = Some q →
      q ∈ phrases db ∧ Row.completed q = 0
      ∧ ∀ p, p ∈ phrases db → Row.completed p = 0 →
          priority_le q p
          ∧ (∀ i j, LEVELS !! i = Some (Row.level p) →
                    LEVELS !! j = Some (Row.level q) → (j ≤ i)%nat)
          ∧ (Row.level p = Row.level q →
             Row.updated_at q <= Row.updated_at p).
Proof.
  unfold PhraseDB.getNextPhrase, statements.getNextPhrase. split.
  - rewrite head_order_None. split.
    + intros Hnil r Hr Hc.
      assert (r ∈ List.filter (fun r => Row.completed r =? 0) (phrases db))
        as Hin by (apply elem_of_filter_bool; split; [done|lia]).
      rewrite Hnil in Hin. by apply elem_of_nil in Hin.
    + intros Hall.
      destruct (List.filter _ (phrases db)) as [|r rows] eqn:Hf; [done|].
      assert (r ∈ List.filter (fun r => Row.completed r =? 0) (phrases db))
        as Hin by (rewrite Hf; left).
      apply elem_of_filter_bool in Hin as [Hin Hc].
      destruct (Hall r Hin). lia.
  - fold (statements.getNextPhrase db). fold (PhraseDB.getNextPhrase db).
    intros q (Hq & Hc & Hmin)%getNextPhrase_Some.
    split; [done|]. split; [done|]. intros p Hp Hpc.
    pose proof (Hmin p Hp Hpc) as Hle.
    split; [done|]. unfold priority_le, priority_leb in Hle. split.
    + intros i j Hi Hj.
      rewrite (next_case_LEVELS _ _ Hi), (next_case_LEVELS _ _ Hj) in Hle.
      simpl in Hle. bool_cases.
    + intros Heq. rewrite Heq in Hle.
      destruct (next_case (Row.level q)) as [x|]; simpl in Hle; bool_cases.
Qed.

(** * Updating the status *)

Lemma update_timestamp_set_status now c id rows :
  update_timestamp now id (map (set_status now c id) rows)
  = map (set_status now c id) rows.
Proof.
  unfold update_timestamp. rewrite map_map. apply map_ext. intros r.
  unfold set_status. destruct (Row.id r =? id) eqn:Hid; simpl.
  - by rewrite Hid.
  - by rewrite Hid.
Qed.

Lemma fire_triggers_fixed now id (news rows : list Row.t) :
  Forall (fun r => Row.id r = id) news →
  update_timestamp now id rows = rows →
  fold_left (fun acc new => update_timestamp now (Row.id new) acc) news rows
  = rows.
Proof.
  intros Hnews Hfix. induction Hnews as [|r news Hr _ IH]; [done|].
  cbn [fold_left]. rewrite Hr, Hfix. exact IH.
Qed.

(** The trigger changes nothing the statement has not already written. *)
Lemma updateStatus_rows now c id db :
  phrases (statements.updateStatus now c id db).1
  = map (set_status now c id) (phrases db).
Proof.
  unfold statements.updateStatus. cbn [fst phrases].
  change (map _ (phrases db)) with (map (set_status now c id) (phrases db)).
  apply (fire_triggers_fixed now id).
  - apply Forall_forall. intros r. rewrite elem_of_filter_bool.
    intros [_ Hr]. lia.
  - apply update_timestamp_set_status.
Qed.

Lemma set_status_id now c id r : Row.id (set_status now c id r) = Row.id r.
Proof. unfold set_status. by destruct (Row.id r =? id). Qed.

Lemma map_id_set_status now c id rows :
  map Row.id (map (set_status now c id) rows) = map Row.id rows.
Proof.
  rewrite map_map. apply map_ext. intros r. apply set_status_id.
Qed.

Lemma set_status_absent now c id rows :
  id ∉ map Row.id rows → map (set_status now c id) rows = rows.
Proof.
  intros Hnot. rewrite <- (map_id rows) at 2. apply map_ext_in.
  intros r Hr. unfold set_status.
  destruct (Z.eqb_spec (Row.id r) id) as [Heq|]; [|done].
  destruct Hnot. apply elem_of_map. exists r.
  by rewrite <- list_elem_of_In in Hr.
Qed.

Lemma changes_occurrences id rows :
  length (List.filter (fun r : Row.t => Row.id r =? id) rows)
  = occurrences id (map Row.id rows).
Proof.
  unfold occurrences. induction rows as [|r rows IH]; [done|]. simpl.
  destruct (Z.eqb_spec (Row.id r) id) as [Heq|Hne].
  - rewrite bool_decide_eq_true_2 by done. simpl. by rewrite IH.
  - by rewrite bool_decide_eq_false_2.
Qed.

Lemma occurrences_NoDup {A} `{EqDecision A} (x : A) l :
  NoDup l → x ∈ l → occurrences x l = 1%nat.
Proof.
  induction 1 as [|y l Hy Hl IH]; [by intros ?%elem_of_nil|].
  rewrite occurrences_cons. intros [->|Hx]%elem_of_cons.
  - rewrite bool_decide_eq_true_2 by done. by rewrite occurrences_none.
  - rewrite bool_decide_eq_false_2; [by rewrite IH|].
    intros ->. contradiction.
Qed.

Lemma updateStatus_fst now id flag db :
  (PhraseDB.updateStatus now id flag db).1
  = (statements.updateStatus now (if flag then 1 else 0) id db).1.
Proof. reflexivity. Qed.

(** * Invariants of the store *)

(** A property of stores that successful INSERTs keep is kept by the
    import loop, and so by [importPhrases] whatever its outcome. *)
Section Preservation.
Variable P : DB → Prop.
Hypothesis insert_keeps : ∀ now ru en level db db',
  P db → statements.insertPhrase now ru en level db = Ok db' → P db'.

Lemma insertTx_body_keeps clk ex todo : ∀ n st st',
  P (ls_db st) → insertTx_body clk ex n todo st = Ok st' → P (ls_db st').
Proof.
  induction todo as [|p todo IH]; intros n st st' HP.
  - by intros [= <-].
  - cbn [insertTx_body]. destruct (bool_decide _).
    + apply IH. exact HP.
    + unfold run_insert.
      destruct (Candidate.ru p) as [r|]; [|discriminate].
      destruct (Candidate.en p) as [e|]; [|discriminate].
      destruct (Candidate.level p) as [l|]; [|discriminate].
      destruct (statements.insertPhrase _ r e l _) as [db1|] eqn:Hins;
        [|discriminate].
      apply IH. cbn [ls_db]. eapply insert_keeps; [exact HP | exact Hins].
Qed.

Lemma importPhrases_keeps clk parsed db :
  P db → P (PhraseDB.importPhrases clk parsed db).1.
Proof.
  intros HP.
  destruct (PhraseDB.importPhrases clk parsed db) as [db' o] eqn:Himp.
  pose proof (importPhrases_not_Reported clk parsed db) as Hsame.
  rewrite Himp in Hsame. cbn [fst snd] in *.
  destruct o as [e| |ins sk]; [by rewrite Hsame..|].
  destruct parsed as [elems|]; [|discriminate].
  apply importPhrases_Reported in Himp as [_ Hbody].
  by apply insertTx_body_keeps in Hbody.
Qed.

Lemma exec_keeps c db :
  (∀ now id flag, c = CallUpdateStatus now id flag →
                  P (PhraseDB.updateStatus now id flag db).1) →
  P db → P (exec c db).
Proof.
  intros Hupd HP. destruct c as [clk parsed|now id flag|now ru en level].
  - by apply importPhrases_keeps.
  - by apply Hupd.
  - simpl. destruct (statements.insertPhrase _ _ _ _ _) eqn:Hins; [|done].
    by eapply insert_keeps.
Qed.
End Preservation.

Lemma insertPhrase_db_ok now ru en level db db' :
  db_ok db → statements.insertPhrase now ru en level db = Ok db' → db_ok db'.
Proof.
  intros (Hrows & Hnodup & Hseq) Hins.
  pose proof Hins as Hins'. unfold statements.insertPhrase in Hins'.
  destruct (negb _); [discriminate|].
  destruct (MAX_ROWID <=? _); [discriminate|].
  injection Hins' as <-. unfold db_ok. cbn [phrases sqlite_sequence].
  apply insertPhrase_Ok in Hins as (i & _ & _ & Hc1 & Hc2 & Hc3).
  split; [|split].
  - apply Forall_app. split; [done|]. constructor; [|done].
    repeat split; auto.
  - rewrite map_app. apply NoDup_app. split; [done|]. split.
    + intros x Hx [->|[]%elem_of_nil]%elem_of_cons.
      apply elem_of_map in Hx as (r & Hid & Hr).
      apply max_rowid_ge in Hr. cbn in Hid. lia.
    + apply NoDup_singleton.
  - rewrite max_rowid_app, max_rowid_cons. cbn. change (max_rowid []) with 0.
    pose proof (max_rowid_nonneg (phrases db)). lia.
Qed.

Lemma updateStatus_db_ok now id flag db :
  db_ok db → db_ok (PhraseDB.updateStatus now id flag db).1.
Proof.
  intros (Hrows & Hnodup & Hseq).
  pose proof (updateStatus_rows now (if flag then 1 else 0) id db) as Hr.
  rewrite <- updateStatus_fst in Hr.
  assert (sqlite_sequence (PhraseDB.updateStatus now id flag db).1
          = sqlite_sequence db) as Hs by reflexivity.
  unfold db_ok. rewrite Hr, Hs, map_id_set_status.
  split; [|split]; [|done|].
  - apply Forall_forall. intros r' (r & -> & Hin)%elem_of_map.
    rewrite Forall_forall in Hrows. destruct (Hrows r Hin) as (? & ? & ? & ?).
    unfold set_status. destruct (Row.id r =? id); [|done].
    repeat split; auto. cbn. destruct flag; auto.
  - rewrite (max_rowid_ids _ (phrases db)); [done|].
    apply map_id_set_status.
Qed.

Lemma reachable_db_ok db : reachable db → db_ok db.
Proof.
  induction 1 as [|c db _ IH].
  - repeat split; [constructor | constructor | done].
  - apply exec_keeps; [apply insertPhrase_db_ok| |done].
    intros now id flag _. by apply updateStatus_db_ok.
Qed.

Lemma reachable_run cs db : reachable db → reachable (run cs db).
Proof.
  revert db. induction cs as [|c cs IH]; intros db Hdb; [done|].
  apply IH. by constructor.
Qed.

Lemma sql_length_positive s : check_ru s = true → s ≠ "".
Proof. by intros H ->. Qed.

(** C8.  [updateStatus] returns the id it was given and the number of
    rows whose id matches; each matching row gets the flag (1 or 0) and
    the current time as [updated_at], every other row and the counter are
    left alone.  With an id that no row has, the result is 0 changes and
    an unchanged store, and nothing is thrown; in a store the program can
    reach a known id gives exactly 1. *)
Theorem updateStatus_sets_flag_and_counts now id flag db :
  PhraseDB.id (PhraseDB.updateStatus now id flag db).2 = id
  ∧ PhraseDB.changes (PhraseDB.updateStatus now id flag db).2
    = Z.of_nat (occurrences id (map Row.id (phrases db)))
  ∧ phrases (PhraseDB.updateStatus now id flag db).1
    = map (fun r =>
             if Row.id r =? id
             then Row.Make (Row.id r) (Row.ru r) (Row.en r) (Row.level r)
                    (if flag then 1 else 0) (Row.created_at r) now
             else r) (phrases db)
  ∧ sqlite_sequence (PhraseDB.updateStatus now id flag db).1
    = sqlite_sequence db
  ∧ (id ∉ map Row.id (phrases db) →
     PhraseDB.updateStatus now id flag db = (db, PhraseDB.MkStatus id 0))
  ∧ (id ∈ map Row.id (phrases db) → reachable db →
     PhraseDB.changes (PhraseDB.updateStatus now id flag db).2 = 1).
Proof.
  assert (PhraseDB.changes (PhraseDB.updateStatus now id flag db).2
          = Z.of_nat (occurrences id (map Row.id (phrases db)))) as Hch.
  { cbn. by rewrite changes_occurrences. }
  split; [done|]. split; [done|]. split.
  { rewrite updateStatus_fst. apply updateStatus_rows. }
  split; [done|]. split.
  - intros Hnot.
    pose proof (updateStatus_rows now (if flag then 1 else 0) id db) as Hrows.
    rewrite set_status_absent in Hrows by done.
    rewrite occurrences_none in Hch by done.
    destruct (PhraseDB.updateStatus now id flag db) as [db' [i n]] eqn:Hu.
    assert (i = id) as -> by (by inversion Hu).
    cbn in Hch. subst n. f_equal.
    rewrite <- updateStatus_fst, Hu in Hrows. cbn in Hrows.
    assert (sqlite_sequence db' = sqlite_sequence db) by (by inversion Hu).
    destruct db', db; simpl in *; congruence.
  - intros Hin (_ & Hnodup & _)%reachable_db_ok. rewrite Hch.
    by rewrite occurrences_NoDup.
Qed.

(** * The duplicate key, exactly *)










(** * The schema as a guard *)

(** C10.  The CHECK constraints hold for every stored record whatever
    path wrote it: in every store reachable by imports, status updates
    and direct runs of the insert statement, each record has a non-empty
    [ru], a non-empty [en] and a level among the six.  A direct insert
    with an empty text or a level outside the enumeration fails with a
    constraint error and leaves the store unchanged. *)
Theorem schema_enforces_record_invariants :
  (∀ db, reachable db →
     ∀ r, r ∈ phrases db →
       Row.ru r ≠ "" ∧ Row.en r ≠ ""
       ∧ Row.level r ∈ ["A1"; "A2"; "B1"; "B2"; "C1"; "C2"])
  ∧ (∀ now ru en level db,
       ru = "" ∨ en = "" ∨ level ∉ ["A1"; "A2"; "B1"; "B2"; "C1"; "C2"] →
       statements.insertPhrase now ru en level db
       = Err (SqliteError SQLITE_CONSTRAINT_CHECK)
       ∧ exec (CallInsert now ru en level) db = db).
Proof.
  split.
  - intros db (Hrows & _)%reachable_db_ok r Hr.
    rewrite Forall_forall in Hrows.
    destruct (Hrows r Hr) as (Hc1 & Hc2 & Hc3 & _).
    split; [by apply sql_length_positive|].
    split; [by apply sql_length_positive|].
    unfold check_level in Hc3. by apply bool_decide_eq_true in Hc3.
  - intros now ru en level db Hbad.
    assert (check_ru ru && check_en en && check_level level = false) as Hc.
    { destruct Hbad as [->|[->|Hl]].
      - reflexivity.
      - by rewrite andb_false_r.
      - unfold check_level. rewrite (bool_decide_eq_false_2 _ Hl).
        by rewrite andb_false_r. }
    assert (statements.insertPhrase now ru en level db
            = Err (SqliteError SQLITE_CONSTRAINT_CHECK)) as Herr.
    { unfold statements.insertPhrase. by rewrite Hc. }
    split; [done|]. simpl. by rewrite Herr.
Qed.

(** * Completion *)

Lemma insertPhrase_marked_complete id now ru en level db db' :
  marked_complete id db →
  statements.insertPhrase now ru en level db = Ok db' →
  marked_complete id db'.
Proof.
  intros [Hin Hdone] (i & Hrows & Hi & _)%insertPhrase_Ok.
  unfold marked_complete. rewrite Hrows, map_app. split.
  - apply elem_of_app. by left.
  - intros r [Hr|Hr]%elem_of_app; [by apply Hdone|].
    apply list_elem_of_singleton in Hr as ->. cbn. intros ->.
    apply elem_of_map in Hin as (r & -> & Hr).
    apply max_rowid_ge in Hr. lia.
Qed.

Lemma updateStatus_marked_complete id now id' flag db :
  (id' = id → flag = true) →
  marked_complete id db →
  marked_complete id (PhraseDB.updateStatus now id' flag db).1.
Proof.
  intros Hflag [Hin Hdone]. unfold marked_complete.
  rewrite updateStatus_fst, updateStatus_rows, map_id_set_status.
  split; [done|]. intros r' (r & -> & Hr)%elem_of_map.
  rewrite set_status_id. intros Hid. unfold set_status.
  destruct (Z.eqb_spec (Row.id r) id') as [Heq|Hne].
  - cbn. rewrite Hflag; [done|congruence].
  - by apply Hdone.
Qed.

Lemma updateStatus_true_marks now id db :
  id ∈ map Row.id (phrases db) →
  marked_complete id (PhraseDB.updateStatus now id true db).1.
Proof.
  intros Hin. unfold marked_complete.
  rewrite updateStatus_fst, updateStatus_rows, map_id_set_status.
  split; [done|]. intros r' (r & -> & Hr)%elem_of_map.
  rewrite set_status_id. intros Hid. unfold set_status.
  by rewrite (proj2 (Z.eqb_eq _ _) Hid).
Qed.

Lemma run_marked_complete id cs : ∀ db,
  Forall (fun c => ∀ now, c ≠ CallUpdateStatus now id false) cs →
  marked_complete id db → marked_complete id (run cs db).
Proof.
  induction cs as [|c cs IH]; intros db Hcs Hdb; [done|].
  inversion Hcs as [|? ? Hc Hrest]; subst. cbn. apply IH; [done|].
  apply exec_keeps; [apply insertPhrase_marked_complete| |done].
  intros now id' flag ->. apply updateStatus_marked_complete; [|done].
  intros ->. destruct flag; [done|]. by destruct (Hc now).
Qed.

(** C6, for ids of existing records.  Once [updateStatus(id, true)] has
    been applied to a store that holds a record with this id, then after
    any further imports, inserts and status updates, none of which is
    [updateStatus(id, false)], [getNextPhrase] does not return the record
    with this id. *)
Theorem completed_record_is_not_served now id cs db :
  id ∈ map Row.id (phrases db) →
  Forall (fun c => ∀ now', c ≠ CallUpdateStatus now' id false) cs →
  ∀ r, PhraseDB.getNextPhrase
         (run cs (PhraseDB.updateStatus now id true db).1) = Some r →
       Row.id r ≠ id.
Proof.
  intros Hin Hcs r Hnext Hid.
  pose proof (run_marked_complete id cs _ Hcs
                (updateStatus_true_marks now id db Hin)) as [_ Hdone].
  apply getNextPhrase_Some in Hnext as (Hr & Hc & _).
  specialize (Hdone r Hr Hid). lia.
Qed.

Lemma completed_record_is_not_served_witness :
  3 ∈ map Row.id (phrases sample_db)
  ∧ ∀ r, PhraseDB.getNextPhrase
           (run late_import (PhraseDB.updateStatus 40 3 true sample_db).1)
         = Some r →
         Row.id r ≠ 3.
Proof.
  split; [vm_compute; repeat constructor|].
  apply (completed_record_is_not_served 40 3 late_import sample_db).
  - vm_compute. repeat constructor.
  - repeat constructor; discriminate.
Defined.

(** C6, as stated for every id, fails for an id that no record has yet:
    on the fresh store [updateStatus(1, true)] changes nothing, the next
    import creates the record with id 1, and [getNextPhrase] returns it
    although [updateStatus(1, false)] was never called. *)
Lemma unknown_id_is_served_later :
  PhraseDB.updateStatus 0 1 true empty_db = (empty_db, PhraseDB.MkStatus 1 0)
  ∧ Forall (fun c => ∀ now', c ≠ CallUpdateStatus now' 1 false) late_import
  ∧ PhraseDB.getNextPhrase
      (run late_import (PhraseDB.updateStatus 0 1 true empty_db).1)
    = Some (Row.Make 1 "a" "b" "A1" 0 5 5).
Proof.
  split; [reflexivity|]. split; [|vm_compute; reflexivity].
  repeat constructor. discriminate.
Qed.

(** * Statistics *)

Lemma sum_Z_cons x l : sum_Z (x :: l) = x + sum_Z l.
Proof. reflexivity. Qed.

Lemma sum_Z_Permutation l l' : l ≡ₚ l' → sum_Z l = sum_Z l'.
Proof.
  induction 1 as [|x l l' _ IH|x y l|l l' l'' _ IH1 _ IH2];
    rewrite ?sum_Z_cons; lia.
Qed.

Lemma sum_Z_map_add {A} (f g : A → Z) l :
  sum_Z (map (fun x => f x + g x) l) = sum_Z (map f l) + sum_Z (map g l).
Proof.
  induction l as [|x l IH]; [done|]. cbn [map]. rewrite !sum_Z_cons. lia.
Qed.

Lemma sum_Z_map_zero {A} (l : list A) : sum_Z (map (fun _ => 0) l) = 0.
Proof.
  induction l as [|x l IH]; [done|]. cbn [map]. rewrite sum_Z_cons. lia.
Qed.

Lemma sum_Z_indicator (x : string) ls :
  NoDup ls → x ∈ ls →
  sum_Z (map (fun l => if String.eqb x l then 1 else 0) ls) = 1.
Proof.
  induction 1 as [|y ls Hy Hls IH]; [by intros ?%elem_of_nil|].
  cbn [map]. rewrite sum_Z_cons. intros [->|Hx]%elem_of_cons.
  - rewrite String.eqb_refl.
    rewrite (map_ext_in _ (fun _ => 0)), sum_Z_map_zero; [done|].
    intros l Hl. destruct (String.eqb_spec y l) as [->|]; [|done].
    destruct Hy. by apply list_elem_of_In.
  - rewrite IH by done.
    destruct (String.eqb_spec x y) as [->|]; [contradiction|done].
Qed.

Lemma group_of_cons l r rows :
  Z.of_nat (length (statements.group_of l (r :: rows)))
  = (if String.eqb (Row.level r) l then 1 else 0)
    + Z.of_nat (length (statements.group_of l rows)).
Proof.
  unfold statements.group_of. cbn [List.filter].
  destruct (String.eqb (Row.level r) l); [rewrite length_cons|]; lia.
Qed.

(** The groups partition the table. *)
Lemma groups_cover rows : ∀ ls,
  NoDup ls → (∀ r, r ∈ rows → Row.level r ∈ ls) →
  sum_Z (map (fun l => Z.of_nat (length (statements.group_of l rows))) ls)
  = Z.of_nat (length rows).
Proof.
  induction rows as [|r rows IH]; intros ls Hnd Hall.
  - apply sum_Z_map_zero.
  - rewrite (map_ext _ _ (fun l => group_of_cons l r rows)).
    rewrite sum_Z_map_add, IH, sum_Z_indicator, length_cons; [lia|done| |done|].
    + apply Hall. by left.
    + intros r' Hr'. apply Hall. by right.
Qed.

Lemma sum_case_split g :
  Forall row_ok g →
  statements.sum_case 1 g + statements.sum_case 0 g = statements.count_star g.
Proof.
  unfold statements.count_star.
  induction 1 as [|r g (_ & _ & _ & Hc) _ IH]; [done|].
  cbn [statements.sum_case fold_right].
  fold (statements.sum_case 1 g). fold (statements.sum_case 0 g).
  rewrite length_cons. destruct Hc as [-> | ->]; simpl; lia.
Qed.

Lemma sum_case_count v g :
  statements.sum_case v g
  = Z.of_nat (length (List.filter (fun r => Row.completed r =? v) g)).
Proof.
  induction g as [|r g IH]; [done|].
  cbn [statements.sum_case fold_right List.filter].
  fold (statements.sum_case v g). rewrite IH.
  destruct (Row.completed r =? v); [rewrite length_cons|]; lia.
Qed.

Lemma stats_le_total : Total stats_le.
Proof. intros a b. unfold stats_le. lia. Qed.

Lemma stats_le_trans : Transitive stats_le.
Proof. intros a b c. unfold stats_le. lia. Qed.

Lemma stats_case_LEVELS i l :
  LEVELS !! i = Some l → stats_case l = Z.of_nat i + 1.
Proof.
  do 6 (destruct i as [|i]; [by intros [= <-]|]). discriminate.
Qed.

Lemma getStats_Permutation db :
  PhraseDB.getStats db
  ≡ₚ map (stat_of_group (phrases db))
       (remove_dups (map Row.level (phrases db))).
Proof. apply merge_sort_Permutation. Qed.

Lemma stat_levels rows ls :
  map Stat.level (map (stat_of_group rows) ls) = ls.
Proof. rewrite map_map. cbn. apply map_id. Qed.

Lemma StronglySorted_strengthen {A} (R R' : A → A → Prop) l :
  (∀ a b, a ∈ l → b ∈ l → a ≠ b → R a b → R' a b) →
  NoDup l → StronglySorted R l → StronglySorted R' l.
Proof.
  intros Himp Hnd Hs. induction Hs as [|a l Hs IH Hall]; [constructor|].
  apply NoDup_cons in Hnd as [Ha Hnd]. constructor.
  - apply IH; [|done]. intros x y Hx Hy. apply Himp; by right.
  - rewrite Forall_forall in *. intros b Hb.
    apply Himp; [by left | by right | | by apply Hall].
    intros ->. contradiction.
Qed.

Lemma NoDup_map_inj {A B} (f : A → B) l a b :
  NoDup (map f l) → a ∈ l → b ∈ l → f a = f b → a = b.
Proof.
  induction l as [|x l IH]; [by intros _ ?%elem_of_nil|].
  cbn [map]. intros [Hx Hnd]%NoDup_cons Ha Hb Heq.
  apply elem_of_cons in Ha as [->|Ha]; apply elem_of_cons in Hb as [->|Hb].
  - done.
  - destruct Hx. rewrite Heq. apply elem_of_map. by exists b.
  - destruct Hx. rewrite <- Heq. apply elem_of_map. by exists a.
  - by apply IH.
Qed.

Lemma NoDup_of_map {A B} (f : A → B) l : NoDup (map f l) → NoDup l.
Proof.
  induction l as [|x l IH]; [constructor|].
  cbn [map]. intros [Hx Hnd]%NoDup_cons. apply NoDup_cons. split; [|auto].
  intros Hin. apply Hx, elem_of_map. by exists x.
Qed.

Lemma filter_filter_andb {A} (f g : A → bool) l :
  List.filter g (List.filter f l) = List.filter (fun x => f x && g x) l.
Proof.
  induction l as [|x l IH]; [done|]. cbn [List.filter].
  destruct (f x); cbn [List.filter andb]; [|done]. by rewrite IH.
Qed.

Lemma elem_of_getStats db s :
  s ∈ PhraseDB.getStats db ↔
  ∃ l, s = stat_of_group (phrases db) l
       ∧ ∃ r, r ∈ phrases db ∧ Row.level r = l.
Proof.
  rewrite getStats_Permutation, elem_of_map. split.
  - intros (l & -> & Hl). exists l. split; [done|].
    apply elem_of_remove_dups, elem_of_map in Hl as (r & -> & Hr). by exists r.
  - intros (l & -> & r & Hr & <-). exists (Row.level r). split; [done|].
    apply elem_of_remove_dups, elem_of_map. by exists r.
Qed.

Lemma getStats_levels db :
  map Stat.level (PhraseDB.getStats db)
  ≡ₚ remove_dups (map Row.level (phrases db)).
Proof.
  rewrite <- (stat_levels (phrases db) (remove_dups _)).
  apply Permutation_map, getStats_Permutation.
Qed.

(** C7.  In every store the program can reach, [getStats] has exactly one
    row for each level that some record has and none for any other level;
    the rows come in the order A1, A2, B1, B2, C1, C2 of their levels;
    each row counts the records of its level (total, those with
    completed = 1, those with completed = 0), its total is positive and
    equals completed + remaining; and the totals add up to the number of
    records. *)
Theorem getStats_consistent db :
  reachable db →
  NoDup (map Stat.level (PhraseDB.getStats db))
  ∧ (∀ l, l ∈ map Stat.level (PhraseDB.getStats db)
          ↔ ∃ r, r ∈ phrases db ∧ Row.level r = l)
  ∧ StronglySorted rank_lt (PhraseDB.getStats db)
  ∧ (∀ s, s ∈ PhraseDB.getStats db →
       Stat.total s
       = Z.of_nat (length (List.filter
           (fun r => String.eqb (Row.level r) (Stat.level s)) (phrases db)))
       ∧ Stat.completed s
         = Z.of_nat (length (List.filter
             (fun r => String.eqb (Row.level r) (Stat.level s)
                       && (Row.completed r =? 1)) (phrases db)))
       ∧ Stat.remaining s
         = Z.of_nat (length (List.filter
             (fun r => String.eqb (Row.level r) (Stat.level s)
                       && (Row.completed r =? 0)) (phrases db)))
       ∧ 0 < Stat.total s
       ∧ Stat.total s = Stat.completed s + Stat.remaining s)
  ∧ sum_Z (map Stat.total (PhraseDB.getStats db))
    = Z.of_nat (length (phrases db)).
Proof.
  intros (Hrows & _)%reachable_db_ok.
  assert (NoDup (map Stat.level (PhraseDB.getStats db))) as Hnd.
  { rewrite getStats_levels. apply NoDup_remove_dups. }
  assert (∀ l, l ∈ map Stat.level (PhraseDB.getStats db)
               ↔ ∃ r, r ∈ phrases db ∧ Row.level r = l) as Hlev.
  { intros l. rewrite getStats_levels, elem_of_remove_dups, elem_of_map.
    split; intros (r & H1 & H2); exists r; auto. }
  split; [done|]. split; [done|]. split; [|split].
  - apply (StronglySorted_strengthen stats_le).
    + intros a b Ha Hb Hne Hle.
      assert (∀ x, x ∈ PhraseDB.getStats db →
                   ∃ i, LEVELS !! i = Some (Stat.level x)) as Hidx.
      { intros x Hx. apply list_elem_of_lookup.
        assert (Stat.level x ∈ map Stat.level (PhraseDB.getStats db)) as Hl
          by (apply elem_of_map; by exists x).
        apply Hlev in Hl as (r & Hr & <-).
        rewrite Forall_forall in Hrows.
        destruct (Hrows r Hr) as (_ & _ & Hc & _).
        by apply bool_decide_eq_true in Hc. }
      destruct (Hidx a Ha) as [i Hi], (Hidx b Hb) as [j Hj].
      exists i, j. split; [done|]. split; [done|].
      unfold stats_le in Hle.
      rewrite (stats_case_LEVELS _ _ Hi), (stats_case_LEVELS _ _ Hj) in Hle.
      destruct (decide (i = j)) as [->|]; [|lia].
      destruct Hne. apply (NoDup_map_inj Stat.level (PhraseDB.getStats db));
        [done..|congruence].
    + by apply NoDup_of_map in Hnd.
    + apply (@StronglySorted_merge_sort _ stats_le _
               stats_le_trans stats_le_total).
  - intros s (l & -> & r & Hr & Hl)%elem_of_getStats.
    unfold stat_of_group.
    cbn [Stat.total Stat.completed Stat.remaining Stat.level].
    rewrite !sum_case_count. unfold statements.group_of.
    rewrite !filter_filter_andb. fold (statements.group_of l (phrases db)).
    change (statements.count_star (statements.group_of l (phrases db)))
      with (Z.of_nat (length (statements.group_of l (phrases db)))).
    split; [done|]. split; [done|]. split; [done|].
    assert (r ∈ statements.group_of l (phrases db)) as Hg.
    { apply elem_of_filter_bool. split; [done|]. by apply String.eqb_eq. }
    split.
    + destruct (statements.group_of l (phrases db)); [by apply elem_of_nil in Hg|].
      rewrite length_cons. lia.
    + rewrite <- !filter_filter_andb, <- !sum_case_count.
      fold (statements.group_of l (phrases db)).
      symmetry. apply sum_case_split.
      apply Forall_forall. intros x [Hx _]%elem_of_filter_bool.
      rewrite Forall_forall in Hrows. by apply Hrows.
  - rewrite (sum_Z_Permutation _ _
               (Permutation_map Stat.total (getStats_Permutation db))).
    rewrite map_map. cbn [stat_of_group Stat.total].
    apply groups_cover; [apply NoDup_remove_dups|].
    intros r Hr. apply elem_of_remove_dups, elem_of_map. by exists r.
Qed.

Lemma getStats_consistent_witness :
  reachable sample_db
  ∧ sum_Z (map Stat.total (PhraseDB.getStats sample_db))
    = Z.of_nat (length (phrases sample_db)).
Proof.
  assert (reachable sample_db) as H by apply reachable_run, reachable_fresh.
  split; [exact H|]. apply (getStats_consistent sample_db H).
Defined.

(** * Further properties of the store *)

Lemma StronglySorted_snoc {A} (R : A → A → Prop) l x :
  StronglySorted R l → Forall (fun y => R y x) l →
  StronglySorted R (l ++ [x]).
Proof.
  induction 1 as [|y l Hs IH Hy]; intros Hall.
  - repeat constructor.
  - apply Forall_cons in Hall as [Hyx Hall]. cbn. constructor; [by apply IH|].
    apply Forall_app. split; [done|]. by repeat constructor.
Qed.

Lemma insertPhrase_row now ru en level db db' :
  statements.insertPhrase now ru en level db = Ok db' →
  db' = MkDB (phrases db
              ++ [Row.Make (Z.max (max_rowid (phrases db)) (sqlite_sequence db) + 1)
                           ru en level 0 now now])
             (Z.max (max_rowid (phrases db)) (sqlite_sequence db) + 1)
  ∧ Z.max (max_rowid (phrases db)) (sqlite_sequence db) < MAX_ROWID.
Proof.
  unfold statements.insertPhrase. destruct (negb _); [discriminate|].
  destruct (Z.leb_spec MAX_ROWID
              (Z.max (max_rowid (phrases db)) (sqlite_sequence db)));
    [discriminate|].
  by intros [= <-].
Qed.

(** The rows an import has appended to [db0] so far. *)
Lemma importPhrases_appends clk parsed db :
  ∃ news,
    phrases (PhraseDB.importPhrases clk parsed db).1 = phrases db ++ news
    ∧ Forall (new_row (max_rowid (phrases db))) news
    ∧ StronglySorted Z.lt (map Row.id news).
Proof.
  apply (importPhrases_keeps
           (fun d => ∃ news, phrases d = phrases db ++ news
                             ∧ Forall (new_row (max_rowid (phrases db))) news
                             ∧ StronglySorted Z.lt (map Row.id news))).
  - intros now ru en level d d' (news & Hd & Hnew & Hsort) Hins.
    apply insertPhrase_row in Hins as [-> _]. cbn [phrases].
    set (i := Z.max (max_rowid (phrases d)) (sqlite_sequence d) + 1).
    exists (news ++ [Row.Make i ru en level 0 now now]).
    assert (max_rowid (phrases d) < i) as Hi by (unfold i; lia).
    rewrite Hd, max_rowid_app in Hi.
    split; [by rewrite Hd, app_assoc|]. split.
    + apply Forall_app. split; [done|]. constructor; [|done].
      repeat split; cbn; lia.
    + rewrite map_app. apply StronglySorted_snoc; [done|].
      apply Forall_forall. intros j (r & -> & Hr)%elem_of_map.
      apply max_rowid_ge in Hr. cbn. lia.
  - exists []. rewrite app_nil_r. repeat constructor.
Qed.

(** X1.  An import only appends.  The rows stored before it are still
    there, unchanged and in place; the rows it adds follow them, each with
    an id above every earlier id (and above the ids added before it),
    [completed = 0] and [updated_at = created_at].  When the import does
    not end with its report (it warned or threw, possibly after some
    inserts), the store is exactly the one before the call. *)
Theorem import_only_appends clk parsed db :
  ∃ news,
    phrases (PhraseDB.importPhrases clk parsed db).1 = phrases db ++ news
    ∧ Forall (new_row (max_rowid (phrases db))) news
    ∧ StronglySorted Z.lt (map Row.id news)
    ∧ ((∀ ins sk, (PhraseDB.importPhrases clk parsed db).2 ≠ Reported ins sk)
       → news = []
         ∧ (PhraseDB.importPhrases clk parsed db).1 = db).
Proof.
  destruct (importPhrases_appends clk parsed db) as (news & Hn & Hnew & Hs).
  exists news. split; [done|]. split; [done|]. split; [done|].
  intros Hno. apply importPhrases_not_Reported in Hno.
  split; [|done]. rewrite Hno in Hn.
  rewrite <- (app_nil_r (phrases db)) in Hn at 1.
  by apply app_inv_head in Hn.
Qed.

Lemma updateStatus_store now id flag db :
  (PhraseDB.updateStatus now id flag db).1
  = MkDB (map (set_status now (if flag then 1 else 0) id) (phrases db))
         (sqlite_sequence db).
Proof.
  pose proof (updateStatus_rows now (if flag then 1 else 0) id db) as Hr.
  rewrite <- updateStatus_fst in Hr.
  assert (sqlite_sequence (PhraseDB.updateStatus now id flag db).1
          = sqlite_sequence db) as Hs by reflexivity.
  destruct (PhraseDB.updateStatus now id flag db).1; cbn in *. by subst.
Qed.

Lemma updateStatus_snd now id flag db :
  (PhraseDB.updateStatus now id flag db).2
  = PhraseDB.MkStatus id (Z.of_nat (occurrences id (map Row.id (phrases db)))).
Proof. cbn. by rewrite changes_occurrences. Qed.

Lemma core_set_status now c id r : core (set_status now c id r) = core r.
Proof. unfold set_status. by destruct (Row.id r =? id). Qed.

Lemma exec_core c db :
  ∃ news, map core (phrases (exec c db)) = map core (phrases db) ++ map core news.
Proof.
  destruct c as [clk parsed|now id flag|now ru en level]; cbn [exec].
  - destruct (importPhrases_appends clk parsed db) as (news & -> & _).
    exists news. by rewrite map_app.
  - exists []. rewrite updateStatus_store. cbn [phrases].
    rewrite map_map, app_nil_r. apply map_ext. intros r. apply core_set_status.
  - destruct (statements.insertPhrase now ru en level db) as [d|] eqn:Hins.
    + apply insertPhrase_row in Hins as [-> _]. cbn [phrases].
      eexists [_]. by rewrite map_app.
    + exists []. by rewrite app_nil_r.
Qed.

(** X2.  No history of calls deletes a record, reorders the table or
    changes the id, the texts, the level or the creation time of a record:
    these columns of the rows present before are found unchanged as a
    prefix of the table afterwards. *)
Theorem history_keeps_records cs db :
  ∃ news,
    map core (phrases (run cs db)) = map core (phrases db) ++ map core news.
Proof.
  revert db. induction cs as [|c cs IH]; intros db.
  - exists []. by rewrite app_nil_r.
  - change (run (c :: cs) db) with (run cs (exec c db)).
    destruct (IH (exec c db)) as (news2 & ->).
    destruct (exec_core c db) as (news1 & ->).
    exists (news1 ++ news2). by rewrite map_app, app_assoc.
Qed.

Lemma insertPhrase_ids_ok now ru en level db db' :
  ids_ok db → statements.insertPhrase now ru en level db = Ok db' → ids_ok db'.
Proof.
  intros (Hsort & Hall & Hseq) [-> Hlt]%insertPhrase_row.
  unfold ids_ok. cbn [phrases sqlite_sequence].
  pose proof (max_rowid_nonneg (phrases db)).
  set (i := Z.max (max_rowid (phrases db)) (sqlite_sequence db) + 1) in *.
  rewrite map_app. cbn [map Row.id]. split; [|split].
  - apply StronglySorted_snoc; [done|].
    eapply Forall_impl; [exact Hall|]. intros j Hj. cbn in Hj. unfold i. lia.
  - apply Forall_app. split.
    + eapply Forall_impl; [exact Hall|]. intros j Hj. cbn in Hj.
      cbn. unfold i. lia.
    + repeat constructor; unfold i; lia.
  - unfold i. lia.
Qed.

Lemma updateStatus_ids_ok now id flag db :
  ids_ok db → ids_ok (PhraseDB.updateStatus now id flag db).1.
Proof.
  unfold ids_ok. rewrite updateStatus_store. cbn [phrases sqlite_sequence].
  by rewrite map_id_set_status.
Qed.

(** X3.  In every store the program can reach the ids increase strictly
    in insertion order (so no id is used twice), every id is positive and
    at most the AUTOINCREMENT counter, and the counter is at most
    2^63 - 1. *)
Theorem reachable_ids_increase db :
  reachable db →
  StronglySorted Z.lt (map Row.id (phrases db))
  ∧ Forall (fun i => 0 < i <= sqlite_sequence db) (map Row.id (phrases db))
  ∧ 0 <= sqlite_sequence db <= 9223372036854775807.
Proof.
  induction 1 as [|c db _ IH].
  - repeat split; try constructor; done.
  - apply (exec_keeps ids_ok); [apply insertPhrase_ids_ok| |done].
    intros now id flag _. by apply updateStatus_ids_ok.
Qed.

Lemma reachable_ids_increase_witness :
  reachable sample_db
  ∧ StronglySorted Z.lt (map Row.id (phrases sample_db)).
Proof.
  assert (reachable sample_db) as H by apply reachable_run, reachable_fresh.
  split; [exact H|]. apply (reachable_ids_increase sample_db H).
Defined.

Lemma set_status_set_status now1 now2 a b id r :
  set_status now2 b id (set_status now1 a id r) = set_status now2 b id r.
Proof.
  unfold set_status. destruct (Row.id r =? id) eqn:Hid; cbn; by rewrite Hid.
Qed.

Lemma set_status_comm now1 now2 a b id1 id2 r :
  id1 ≠ id2 →
  set_status now2 b id2 (set_status now1 a id1 r)
  = set_status now1 a id1 (set_status now2 b id2 r).
Proof.
  intros Hne. unfold set_status.
  destruct (Z.eqb_spec (Row.id r) id1) as [H1|H1],
    (Z.eqb_spec (Row.id r) id2) as [H2|H2]; cbn;
    rewrite ?(proj2 (Z.eqb_eq _ _) H1), ?(proj2 (Z.eqb_eq _ _) H2),
      ?(proj2 (Z.eqb_neq _ _) H1), ?(proj2 (Z.eqb_neq _ _) H2);
    try done; congruence.
Qed.

(** X4.  The last status update of a record wins: updating the same id
    twice gives the same store and the same result object as the second
    update alone, whatever the first one wrote. *)
Theorem updateStatus_last_wins now1 now2 id a b db :
  PhraseDB.updateStatus now2 id b (PhraseDB.updateStatus now1 id a db).1
  = PhraseDB.updateStatus now2 id b db.
Proof.
  apply injective_projections.
  - rewrite !updateStatus_store. cbn [phrases sqlite_sequence]. f_equal.
    rewrite map_map. apply map_ext. intros r. apply set_status_set_status.
  - rewrite !updateStatus_snd, updateStatus_store. cbn [phrases].
    by rewrite map_id_set_status.
Qed.

(** X5.  Status updates of two different ids commute: both orders leave
    the same store. *)
Theorem updateStatus_commute now1 now2 id1 id2 a b db :
  id1 ≠ id2 →
  (PhraseDB.updateStatus now2 id2 b (PhraseDB.updateStatus now1 id1 a db).1).1
  = (PhraseDB.updateStatus now1 id1 a (PhraseDB.updateStatus now2 id2 b db).1).1.
Proof.
  intros Hne. rewrite !updateStatus_store. cbn [phrases sqlite_sequence].
  f_equal. rewrite !map_map. apply map_ext. intros r.
  by apply set_status_comm.
Qed.

Lemma updateStatus_commute_witness :
  2 ≠ 3
  ∧ (PhraseDB.updateStatus 31 3 false
       (PhraseDB.updateStatus 30 2 true sample_db).1).1
    = (PhraseDB.updateStatus 30 2 true
         (PhraseDB.updateStatus 31 3 false sample_db).1).1.
Proof.
  split; [lia|]. apply (updateStatus_commute 30 31 2 3 true false sample_db).
  lia.
Defined.

(** ** When an import fails *)

Lemma sql_length_from_nonneg s : ∀ inmb, 0 <= sql_length_from inmb s.
Proof.
  induction s as [|c s IH]; intros inmb; cbn [sql_length_from]; [done|].
  destruct (byte_of c =? 0); [done|].
  destruct (inmb && _); [apply IH|]. specialize (IH (192 <=? byte_of c)). lia.
Qed.

Lemma check_text s : s ≠ "" → (0 <? sql_length s) = negb (leading_NUL s).
Proof.
  destruct s as [|c s]; [done|]. intros _.
  unfold sql_length. cbn [sql_length_from leading_NUL andb].
  destruct (byte_of c =? 0); [done|]. cbn [negb].
  pose proof (sql_length_from_nonneg s (192 <=? byte_of c)).
  apply Z.ltb_lt. lia.
Qed.

Lemma last_rowid_insert now ru en level db db' :
  statements.insertPhrase now ru en level db = Ok db' →
  last_rowid db' = last_rowid db + 1.
Proof.
  intros [-> _]%insertPhrase_row. unfold last_rowid.
  cbn [phrases sqlite_sequence]. rewrite max_rowid_app, max_rowid_cons.
  change (max_rowid []) with 0. cbn [Row.id].
  pose proof (max_rowid_nonneg (phrases db)). lia.
Qed.

(** ** Selection and statistics together *)

Lemma NoDup_LEVELS : NoDup LEVELS.
Proof. apply (bool_decide_unpack (NoDup LEVELS)). vm_compute. exact I. Qed.

Lemma reachable_level_index db r :
  reachable db → r ∈ phrases db → ∃ i, LEVELS !! i = Some (Row.level r).
Proof.
  intros (Hrows & _)%reachable_db_ok Hr. apply list_elem_of_lookup.
  rewrite Forall_forall in Hrows. destruct (Hrows r Hr) as (_ & _ & Hc & _).
  by apply bool_decide_eq_true in Hc.
Qed.

Lemma priority_le_LEVELS p q i j :
  LEVELS !! i = Some (Row.level p) → LEVELS !! j = Some (Row.level q) →
  priority_le p q →
  (i ≤ j)%nat ∧ (i = j → Row.updated_at p <= Row.updated_at q).
Proof.
  intros Hi Hj. unfold priority_le, priority_leb.
  rewrite (next_case_LEVELS _ _ Hi), (next_case_LEVELS _ _ Hj).
  cbn [null_ltb]. intros Hle. split; [|intros ->]; bool_cases.
Qed.

Lemma filter_nil_length {A} (f : A → bool) l :
  List.filter f l = [] ↔ length (List.filter f l) = 0%nat.
Proof. by destruct (List.filter f l). Qed.

Lemma filter_length_pos {A} (f : A → bool) l :
  (0 < length (List.filter f l))%nat ↔ ∃ x, x ∈ l ∧ f x = true.
Proof.
  split.
  - destruct (List.filter f l) as [|x l'] eqn:Hf; [cbn; lia|]. intros _.
    exists x. apply elem_of_filter_bool. rewrite Hf. by left.
  - intros (x & Hx). apply elem_of_filter_bool in Hx.
    destruct (List.filter f l); [by apply elem_of_nil in Hx|cbn; lia].
Qed.

Lemma getNextPhrase_None db :
  PhraseDB.getNextPhrase db = None ↔ pending db = 0%nat.
Proof.
  unfold PhraseDB.getNextPhrase, statements.getNextPhrase, pending.
  by rewrite head_order_None, filter_nil_length.
Qed.

Lemma remaining_of_group rows l :
  Stat.remaining (stat_of_group rows l)
  = Z.of_nat (length (List.filter
      (fun r => String.eqb (Row.level r) l && (Row.completed r =? 0)) rows)).
Proof.
  unfold stat_of_group. cbn [Stat.remaining].
  by rewrite sum_case_count, <- filter_filter_andb.
Qed.

Lemma remaining_pos rows l :
  0 < Stat.remaining (stat_of_group rows l)
  ↔ ∃ p, p ∈ rows ∧ Row.level p = l ∧ Row.completed p = 0.
Proof.
  rewrite remaining_of_group.
  rewrite <- (Nat2Z.inj_lt 0), filter_length_pos.
  split; intros (p & Hp & H); exists p; split; try done.
  - apply andb_true_iff in H as [Hl Hc].
    apply String.eqb_eq in Hl. split; [done|lia].
  - destruct H as [Hl Hc]. apply andb_true_iff. split.
    + by apply String.eqb_eq.
    + lia.
Qed.

(** X7.  The phrase served next always comes from the first level of the
    statistics table that still has something remaining: in a reachable
    store [getNextPhrase] is "none" exactly when every row of [getStats]
    has remaining = 0, and otherwise the level of the returned record is
    that of a row with remaining > 0 which precedes every other row with
    remaining > 0. *)
Theorem next_phrase_is_from_first_pending_level db :
  reachable db →
  (PhraseDB.getNextPhrase db = None
   ↔ ∀ s, s ∈ PhraseDB.getStats db → Stat.remaining s = 0)
  ∧ ∀ q, PhraseDB.getNextPhrase db = Some q →
      ∃ s, s ∈ PhraseDB.getStats db
           ∧ Stat.level s = Row.level q
           ∧ 0 < Stat.remaining s
           ∧ ∀ s', s' ∈ PhraseDB.getStats db → 0 < Stat.remaining s' →
                   s' = s ∨ rank_lt s s'.
Proof.
  intros Hreach. split.
  - rewrite getNextPhrase_None. unfold pending. split.
    + intros Hnone s (l & -> & _)%elem_of_getStats.
      destruct (Z.lt_total 0 (Stat.remaining (stat_of_group (phrases db) l)))
        as [Hpos|[Hz|Hneg]]; [|done|].
      * apply remaining_pos in Hpos as (p & Hp & _ & Hc).
        assert (0 < pending db)%nat as Hlen.
        { apply filter_length_pos. exists p. split; [done|lia]. }
        unfold pending in Hlen. lia.
      * rewrite remaining_of_group in Hneg. lia.
    + intros Hall.
      destruct (List.filter _ (phrases db)) as [|p rest] eqn:Hf; [done|].
      assert (p ∈ List.filter (fun r => Row.completed r =? 0) (phrases db))
        as Hp by (rewrite Hf; left).
      apply elem_of_filter_bool in Hp as [Hp Hc].
      assert (0 < Stat.remaining (stat_of_group (phrases db) (Row.level p)))
        as Hpos.
      { apply remaining_pos. exists p. repeat split; [done|lia]. }
      rewrite (Hall (stat_of_group (phrases db) (Row.level p))) in Hpos;
        [lia|].
      apply elem_of_getStats. exists (Row.level p). split; [done|].
      by exists p.
  - intros q (Hq & Hc & Hmin)%getNextPhrase_Some.
    exists (stat_of_group (phrases db) (Row.level q)).
    split; [|split; [done|split]].
    + apply elem_of_getStats. exists (Row.level q). split; [done|]. by exists q.
    + apply remaining_pos. by exists q.
    + intros s' (l & -> & _)%elem_of_getStats Hpos.
      apply remaining_pos in Hpos as (p & Hp & <- & Hpc).
      destruct (reachable_level_index db q Hreach Hq) as [i Hi].
      destruct (reachable_level_index db p Hreach Hp) as [j Hj].
      destruct (priority_le_LEVELS q p i j Hi Hj (Hmin p Hp Hpc)) as [Hij _].
      destruct (decide (i = j)) as [->|Hne].
      * left. f_equal. congruence.
      * right. exists i, j. cbn [stat_of_group Stat.level].
        split; [done|]. split; [done|lia].
Qed.

Lemma next_phrase_is_from_first_pending_level_witness :
  reachable sample_db
  ∧ (PhraseDB.getNextPhrase sample_db = None
     ↔ ∀ s, s ∈ PhraseDB.getStats sample_db → Stat.remaining s = 0).
Proof.
  assert (reachable sample_db) as H by apply reachable_run, reachable_fresh.
  split; [exact H|].
  apply (next_phrase_is_from_first_pending_level sample_db H).
Defined.

(** X8.  A phrase answered "no" goes behind its level: when the record
    just served is marked incomplete again at time [now] and another
    incomplete record of the same level was last touched before [now],
    the next phrase served is a different record, of the same level. *)
Theorem skipped_phrase_goes_behind now db q p :
  reachable db →
  PhraseDB.getNextPhrase db = Some q →
  p ∈ phrases db → Row.completed p = 0 → Row.id p ≠ Row.id q →
  Row.level p = Row.level q → Row.updated_at p < now →
  ∃ r, PhraseDB.getNextPhrase
         (PhraseDB.updateStatus now (Row.id q) false db).1 = Some r
       ∧ Row.id r ≠ Row.id q
       ∧ Row.level r = Row.level q.
Proof.
  intros Hreach (Hq & Hqc & Hmin)%getNextPhrase_Some Hp Hpc Hpq Hlev Hold.
  set (db' := (PhraseDB.updateStatus now (Row.id q) false db).1).
  assert (phrases db' = map (set_status now 0 (Row.id q)) (phrases db))
    as Hrows by (unfold db'; by rewrite updateStatus_store).
  assert (p ∈ phrases db') as Hp'.
  { rewrite Hrows. apply elem_of_map. exists p. split; [|done].
    unfold set_status. by rewrite (proj2 (Z.eqb_neq _ _) Hpq). }
  destruct (PhraseDB.getNextPhrase db') as [r|] eqn:Hnext.
  2:{ apply getNextPhrase_None in Hnext.
      assert (0 < pending db')%nat.
      { apply filter_length_pos. exists p. split; [done|lia]. }
      lia. }
  exists r. split; [done|].
  apply getNextPhrase_Some in Hnext as (Hr & Hrc & Hmin').
  rewrite Hrows in Hr. apply elem_of_map in Hr as (r0 & -> & Hr0).
  pose proof (Hmin' p Hp' Hpc) as Hle.
  destruct (reachable_level_index db q Hreach Hq) as [i Hi].
  destruct (reachable_level_index db r0 Hreach Hr0) as [k Hk].
  assert (LEVELS !! i = Some (Row.level p)) as Hip by (by rewrite Hlev).
  rewrite set_status_id. unfold set_status in *.
  destruct (Z.eqb_spec (Row.id r0) (Row.id q)) as [Heq|Hne].
  - assert (r0 = q) as ->.
    { apply reachable_db_ok in Hreach as (_ & Hnd & _).
      by apply (NoDup_map_inj Row.id (phrases db)). }
    apply (priority_le_LEVELS _ _ i i) in Hle as [_ Hup];
      [|exact Hi|exact Hip].
    specialize (Hup eq_refl). cbn in Hup. lia.
  - split; [done|].
    destruct (priority_le_LEVELS r0 p k i Hk Hip Hle) as [Hki _].
    destruct (priority_le_LEVELS q r0 i k Hi Hk (Hmin r0 Hr0 Hrc)) as [Hik _].
    assert (k = i) as -> by lia. congruence.
Qed.

Lemma skipped_phrase_goes_behind_witness :
  ∃ r, PhraseDB.getNextPhrase
         (PhraseDB.updateStatus 50 1 false scenario_db).1 = Some r
       ∧ Row.id r ≠ 1
       ∧ Row.level r = "A1".
Proof.
  apply (skipped_phrase_goes_behind 50 scenario_db
           (Row.Make 1 "Привет" "Hello" "A1" 0 0 0)
           (Row.Make 2 "Привет" "Hello" "A1" 0 0 0)).
  - apply (reachable_exec (CallImport (fun _ => 0) scenario) empty_db).
    apply reachable_fresh.
  - reflexivity.
  - right. left.
  - reflexivity.
  - cbn. lia.
  - reflexivity.
  - cbn. lia.
Defined.

(** ** The totals of the statistics table *)

Lemma accumulate_from stats : ∀ a b,
  fold_left (fun acc row => (acc.1 + Stat.total row, acc.2 + Stat.completed row))
            stats (a, b)
  = (a + sum_Z (map Stat.total stats), b + sum_Z (map Stat.completed stats)).
Proof.
  induction stats as [|s stats IH]; intros a b.
  - cbn. f_equal; lia.
  - cbn [fold_left map]. rewrite IH, !sum_Z_cons. cbn [fst snd].
    f_equal; lia.
Qed.

Lemma sum_case_of_group v l rows :
  statements.sum_case v (statements.group_of l rows)
  = Z.of_nat (length (statements.group_of l
                        (List.filter (fun r => Row.completed r =? v) rows))).
Proof.
  rewrite sum_case_count. unfold statements.group_of.
  rewrite !filter_filter_andb. do 2 f_equal.
  apply List.filter_ext. intros r. apply andb_comm.
Qed.

Lemma getStats_sum_case v db :
  sum_Z (map (fun s => statements.sum_case v
                         (statements.group_of (Stat.level s) (phrases db)))
             (PhraseDB.getStats db))
  = Z.of_nat (length (List.filter (fun r => Row.completed r =? v)
                        (phrases db))).
Proof.
  rewrite (sum_Z_Permutation _ _
             (Permutation_map _ (getStats_Permutation db))).
  rewrite map_map. cbn [stat_of_group Stat.level].
  rewrite (map_ext _ _ (fun l => sum_case_of_group v l (phrases db))).
  apply groups_cover; [apply NoDup_remove_dups|].
  intros r [Hr _]%elem_of_filter_bool.
  apply elem_of_remove_dups, elem_of_map. by exists r.
Qed.

Lemma getStats_columns db s :
  s ∈ PhraseDB.getStats db →
  Stat.completed s
  = statements.sum_case 1 (statements.group_of (Stat.level s) (phrases db))
  ∧ Stat.remaining s
    = statements.sum_case 0 (statements.group_of (Stat.level s) (phrases db)).
Proof. by intros (l & -> & _)%elem_of_getStats. Qed.

Lemma getStats_sum_total db :
  sum_Z (map Stat.total (PhraseDB.getStats db))
  = Z.of_nat (length (phrases db)).
Proof.
  rewrite (sum_Z_Permutation _ _
             (Permutation_map Stat.total (getStats_Permutation db))).
  rewrite map_map. cbn [stat_of_group Stat.total].
  apply groups_cover; [apply NoDup_remove_dups|].
  intros r Hr. apply elem_of_remove_dups, elem_of_map. by exists r.
Qed.

Lemma getStats_sum_completed db :
  sum_Z (map Stat.completed (PhraseDB.getStats db)) = Z.of_nat (learned db).
Proof.
  unfold learned. rewrite <- getStats_sum_case. f_equal.
  apply map_ext_in. intros s Hs%list_elem_of_In.
  by apply getStats_columns in Hs as [-> _].
Qed.

Lemma getStats_length db :
  length (PhraseDB.getStats db)
  = length (remove_dups (map Row.level (phrases db))).
Proof.
  rewrite (Permutation_length (getStats_Permutation db)).
  apply length_map.
Qed.

Lemma getStats_nil db :
  (length (PhraseDB.getStats db) =? 0)%nat
  = (length (phrases db) =? 0)%nat.
Proof.
  rewrite getStats_length. destruct (phrases db) as [|r rows]; [done|].
  cbn [length Nat.eqb].
  assert (Row.level r ∈ remove_dups (map Row.level (r :: rows))) as Hin.
  { apply elem_of_remove_dups. cbn. left. }
  destruct (remove_dups _); [by apply elem_of_nil in Hin|done].
Qed.

Lemma learned_pending rows :
  Forall row_ok rows →
  (length (List.filter (fun r => (Row.completed r =? 1)%Z) rows)
   + length (List.filter (fun r => (Row.completed r =? 0)%Z) rows))%nat
  = length rows.
Proof.
  induction 1 as [|r rows (_ & _ & _ & Hc) _ IH]; [done|].
  cbn [List.filter]. destruct Hc as [-> | ->]; cbn; lia.
Qed.

(** X9.  The closing line of the statistics table agrees with the store:
    no table is printed exactly when there is no record, and otherwise
    the line shows the number of records, the number of completed records
    and the number of incomplete ones. *)
Theorem overall_line_matches_store db :
  reachable db →
  overall_line (PhraseDB.getStats db)
  = if (length (phrases db) =? 0)%nat then None
    else Some (Z.of_nat (length (phrases db)), Z.of_nat (learned db),
               Z.of_nat (pending db)).
Proof.
  intros (Hrows & _)%reachable_db_ok.
  unfold overall_line, accumulate. rewrite getStats_nil.
  destruct (length (phrases db) =? 0)%nat; [done|].
  rewrite accumulate_from, getStats_sum_total, getStats_sum_completed.
  cbn. do 2 f_equal.
  pose proof (learned_pending _ Hrows). unfold learned, pending. lia.
Qed.

Lemma overall_line_matches_store_witness :
  reachable sample_db
  ∧ overall_line (PhraseDB.getStats sample_db) = Some (4, 1, 3).
Proof.
  assert (reachable sample_db) as H by apply reachable_run, reachable_fresh.
  split; [exact H|]. apply (overall_line_matches_store sample_db H).
Defined.

(** X10.  The entry point announces an empty database and exits exactly
    when the store has no record; with at least one record it starts the
    session. *)
Theorem main_exits_iff_no_record db :
  (main db = ExitEmptyDatabase ↔ phrases db = [])
  ∧ (main db = StartSession ↔ phrases db ≠ []).
Proof.
  unfold main. rewrite getStats_nil.
  destruct (phrases db) as [|r rows]; cbn; split; split; try done.
Qed.

(** * The learning session *)

Lemma session_loop_done clk answers db st :
  PhraseDB.getNextPhrase db = None →
  CLI.session_loop clk answers db st = (CLI.AllCompleted, db, st).
Proof. intros H. destruct answers; cbn [CLI.session_loop]; by rewrite H. Qed.

Lemma session_loop_nil clk db st phrase :
  PhraseDB.getNextPhrase db = Some phrase →
  CLI.session_loop clk [] db st = (CLI.AwaitingAnswer, db, st).
Proof. intros H. cbn [CLI.session_loop]. by rewrite H. Qed.

Lemma session_loop_cons clk answer rest db st phrase :
  PhraseDB.getNextPhrase db = Some phrase →
  CLI.session_loop clk (answer :: rest) db st
  = if String.eqb answer "q" then (CLI.QuitByUser, db, st)
    else if CLI.is_answer answer
    then CLI.session_loop clk rest
           (PhraseDB.updateStatus (clk (CLI.total st)) (Row.id phrase)
              (CLI.is_yes answer) db).1
           (CLI.count_answer (CLI.is_yes answer) st)
    else CLI.session_loop clk rest db st.
Proof.
  intros H. cbn [CLI.session_loop]. rewrite H.
  destruct (String.eqb answer "q"); [done|].
  destruct (CLI.is_answer answer); [done|].
  destruct rest; cbn [CLI.session_loop]; by rewrite H.
Qed.

(** How one status update of a stored incomplete record moves the counts
    of the rows whose flag satisfies [f]. *)
Lemma count_set_status (f : Z → bool) now c q rows :
  NoDup (map Row.id rows) → q ∈ rows → Row.completed q = 0 →
  (length (List.filter (fun r => f (Row.completed r))
             (map (set_status now c (Row.id q)) rows))
   + (if f 0%Z then 1 else 0))%nat
  = (length (List.filter (fun r => f (Row.completed r)) rows)
     + (if f c then 1 else 0))%nat.
Proof.
  induction rows as [|r rows IH]; [by intros _ ?%elem_of_nil|].
  cbn [map]. intros [Hr Hnd]%NoDup_cons Hq Hc.
  destruct (decide (Row.id r = Row.id q)) as [Heq|Hne].
  - assert (q = r) as ->.
    { apply elem_of_cons in Hq as [->|Hq]; [done|].
      destruct Hr. rewrite Heq. apply elem_of_map. by exists q. }
    rewrite set_status_absent by done.
    unfold set_status. rewrite Z.eqb_refl. cbn [List.filter Row.completed].
    rewrite Hc. destruct (f 0), (f c); cbn [length]; lia.
  - apply elem_of_cons in Hq as [->|Hq]; [done|].
    unfold set_status at 1. rewrite (proj2 (Z.eqb_neq _ _) Hne).
    cbn [List.filter]. specialize (IH Hnd Hq Hc).
    destruct (f (Row.completed r)); cbn [length]; lia.
Qed.

Lemma answer_counts now flag db q :
  reachable db → PhraseDB.getNextPhrase db = Some q →
  learned (PhraseDB.updateStatus now (Row.id q) flag db).1
  = (learned db + (if flag then 1 else 0))%nat
  ∧ (pending (PhraseDB.updateStatus now (Row.id q) flag db).1
     + (if flag then 1 else 0))%nat
    = pending db.
Proof.
  intros (_ & Hnd & _)%reachable_db_ok (Hq & Hc & _)%getNextPhrase_Some.
  unfold learned, pending. rewrite updateStatus_store. cbn [phrases].
  pose proof (count_set_status (fun x => x =? 1) now
                (if flag then 1 else 0) q _ Hnd Hq Hc) as H1.
  pose proof (count_set_status (fun x => x =? 0) now
                (if flag then 1 else 0) q _ Hnd Hq Hc) as H0.
  cbn beta in H1, H0. destruct flag; cbn in H1, H0; lia.
Qed.

Lemma reachable_updateStatus now id flag db :
  reachable db → reachable (PhraseDB.updateStatus now id flag db).1.
Proof. intros H. exact (reachable_exec (CallUpdateStatus now id flag) db H). Qed.

Lemma count_answer_fields done st :
  CLI.total (CLI.count_answer done st) = CLI.total st + 1
  ∧ CLI.completed (CLI.count_answer done st)
    = CLI.completed st + (if done then 1 else 0)
  ∧ CLI.skipped (CLI.count_answer done st)
    = CLI.skipped st + (if done then 0 else 1)
  ∧ CLI.startTime (CLI.count_answer done st) = CLI.startTime st.
Proof. destruct done; cbn; repeat split; lia. Qed.

Lemma session_loop_counts clk answers : ∀ db st e db' st',
  reachable db →
  CLI.session_loop clk answers db st = (e, db', st') →
  0 <= CLI.completed st' - CLI.completed st
  ∧ 0 <= CLI.skipped st' - CLI.skipped st
  ∧ CLI.total st' - CLI.total st
    = (CLI.completed st' - CLI.completed st)
      + (CLI.skipped st' - CLI.skipped st)
  ∧ CLI.total st' - CLI.total st <= Z.of_nat (length answers)
  ∧ Z.of_nat (learned db')
    = Z.of_nat (learned db) + (CLI.completed st' - CLI.completed st)
  ∧ Z.of_nat (pending db')
    = Z.of_nat (pending db) - (CLI.completed st' - CLI.completed st).
Proof.
  induction answers as [|a rest IH]; intros db st e db' st' Hreach;
    (destruct (PhraseDB.getNextPhrase db) as [q|] eqn:Hnext;
     [|rewrite session_loop_done by done; intros [= <- <- <-];
       repeat split; lia]).
  - rewrite (session_loop_nil _ _ _ _ Hnext). intros [= <- <- <-].
    repeat split; cbn; lia.
  - rewrite (session_loop_cons _ _ _ _ _ _ Hnext), length_cons.
    destruct (String.eqb a "q"); [intros [= <- <- <-]; repeat split; lia|].
    destruct (CLI.is_answer a).
    + intros H. apply IH in H; [|by apply reachable_updateStatus].
      destruct (answer_counts (clk (CLI.total st)) (CLI.is_yes a) db q
                  Hreach Hnext) as [Hl Hp].
      destruct (count_answer_fields (CLI.is_yes a) st) as (-> & -> & -> & _)
        in H.
      destruct (CLI.is_yes a); lia.
    + intros H. apply IH in H; [lia|done].
Qed.

(** X11.  The session's books balance.  Started on a reachable store, a
    session counts total = completed + skipped answers (never more than
    the answers given), the number of completed records of the store
    grows by exactly the session's "completed" counter and the number of
    incomplete records shrinks by the same amount. *)
Theorem session_counts_match_store clk start answers db e db' st' :
  reachable db →
  CLI.startSession clk start answers db CLI.fresh_stats = (e, db', st') →
  CLI.total st' = CLI.completed st' + CLI.skipped st'
  ∧ 0 <= CLI.completed st' ∧ 0 <= CLI.skipped st'
  ∧ CLI.total st' <= Z.of_nat (length answers)
  ∧ Z.of_nat (learned db') = Z.of_nat (learned db) + CLI.completed st'
  ∧ Z.of_nat (pending db') = Z.of_nat (pending db) - CLI.completed st'.
Proof.
  unfold CLI.startSession. intros Hreach H.
  apply session_loop_counts in H; [|done]. cbn in H. lia.
Qed.

Lemma session_counts_match_store_witness :
  reachable sample_db
  ∧ CLI.startSession (fun t => 100 + t) 99 ["y"; "x"; "no"; "yes"] sample_db
      CLI.fresh_stats
    = (CLI.AwaitingAnswer,
       (CLI.startSession (fun t => 100 + t) 99 ["y"; "x"; "no"; "yes"]
          sample_db CLI.fresh_stats).1.2,
       CLI.MkStats 3 2 1 (Some 99))
  ∧ CLI.total (CLI.MkStats 3 2 1 (Some 99))
    = CLI.completed (CLI.MkStats 3 2 1 (Some 99))
      + CLI.skipped (CLI.MkStats 3 2 1 (Some 99)).
Proof.
  assert (reachable sample_db) as H by apply reachable_run, reachable_fresh.
  split; [exact H|]. split; [vm_compute; reflexivity|].
  apply (session_counts_match_store (fun t => 100 + t) 99
           ["y"; "x"; "no"; "yes"] sample_db CLI.AwaitingAnswer
           (CLI.startSession (fun t => 100 + t) 99 ["y"; "x"; "no"; "yes"]
              sample_db CLI.fresh_stats).1.2 _ H).
  vm_compute; reflexivity.
Defined.

Lemma session_loop_core clk answers : ∀ db st e db' st',
  CLI.session_loop clk answers db st = (e, db', st') →
  map core (phrases db') = map core (phrases db)
  ∧ sqlite_sequence db' = sqlite_sequence db
  ∧ CLI.startTime st' = CLI.startTime st.
Proof.
  induction answers as [|a rest IH]; intros db st e db' st';
    (destruct (PhraseDB.getNextPhrase db) as [q|] eqn:Hnext;
     [|rewrite session_loop_done by done; by intros [= <- <- <-]]).
  - rewrite (session_loop_nil _ _ _ _ Hnext). by intros [= <- <- <-].
  - rewrite (session_loop_cons _ _ _ _ _ _ Hnext).
    destruct (String.eqb a "q"); [by intros [= <- <- <-]|].
    destruct (CLI.is_answer a); [|apply IH].
    intros (Hc & Hs & Ht)%IH. rewrite Hc, Hs, Ht.
    rewrite updateStatus_store. cbn [phrases sqlite_sequence].
    split; [|split; [done|by destruct (CLI.is_yes a)]].
    rewrite map_map. apply map_ext. intros r. apply core_set_status.
Qed.

(** X12.  A session changes nothing but the status columns: whatever the
    answers, the table afterwards has the same rows in the same order
    with the same id, texts, level and creation time, the AUTOINCREMENT
    counter is untouched, and the start time recorded at the beginning is
    still in the session statistics. *)
Theorem session_touches_only_status clk start answers db st :
  map core (phrases (CLI.startSession clk start answers db st).1.2)
  = map core (phrases db)
  ∧ sqlite_sequence (CLI.startSession clk start answers db st).1.2
    = sqlite_sequence db
  ∧ CLI.startTime (CLI.startSession clk start answers db st).2 = Some start.
Proof.
  unfold CLI.startSession.
  destruct (CLI.session_loop _ _ _ _) as [[e db'] st'] eqn:H.
  by apply session_loop_core in H.
Qed.

Lemma is_yes_is_answer a :
  CLI.is_yes a = true → CLI.is_answer a = true ∧ String.eqb a "q" = false.
Proof.
  unfold CLI.is_yes, CLI.is_answer. rewrite !bool_decide_eq_true.
  rewrite !elem_of_cons. intros [->|[->|[]%elem_of_nil]]; auto.
Qed.

Lemma session_loop_all_yes clk yes : ∀ rest db st,
  reachable db → length yes = pending db →
  Forall (fun a => CLI.is_yes a = true) yes →
  ∃ db',
    CLI.session_loop clk (yes ++ rest) db st
    = (CLI.AllCompleted, db',
       CLI.MkStats (CLI.total st + Z.of_nat (length yes))
                   (CLI.completed st + Z.of_nat (length yes))
                   (CLI.skipped st) (CLI.startTime st))
    ∧ pending db' = 0%nat.
Proof.
  induction yes as [|a yes IH]; intros rest db st Hreach Hlen Hyes.
  - exists db. split; [|done]. rewrite session_loop_done.
    + destruct st; cbn. do 2 f_equal; lia.
    + by apply getNextPhrase_None.
  - apply Forall_cons in Hyes as [Ha Hyes].
    destruct (PhraseDB.getNextPhrase db) as [q|] eqn:Hnext.
    2:{ apply getNextPhrase_None in Hnext. cbn in Hlen. lia. }
    destruct (is_yes_is_answer a Ha) as [Hans Hq].
    rewrite <- app_comm_cons, (session_loop_cons _ _ _ _ _ _ Hnext).
    rewrite Hq, Hans, Ha.
    destruct (answer_counts (clk (CLI.total st)) true db q Hreach Hnext)
      as [_ Hp].
    destruct (IH rest
                (PhraseDB.updateStatus (clk (CLI.total st)) (Row.id q) true db).1
                (CLI.count_answer true st)) as (db' & -> & Hdone);
      [by apply reachable_updateStatus | cbn in Hlen; lia | done |].
    exists db'. split; [|done]. rewrite length_cons.
    cbn [CLI.count_answer CLI.total CLI.completed CLI.skipped CLI.startTime].
    do 2 f_equal; lia.
Qed.

(** X13.  Answering yes to everything finishes the session.  On a
    reachable store with k incomplete records, k affirmative answers
    ("y" or "yes") lead to the completion message whatever is typed
    afterwards: the session has counted k phrases, all of them completed,
    none skipped, and no incomplete record is left. *)
Theorem all_yes_completes_session clk start yes rest db :
  reachable db → length yes = pending db →
  Forall (fun a => a = "y" ∨ a = "yes") yes →
  ∃ db',
    CLI.startSession clk start (yes ++ rest) db CLI.fresh_stats
    = (CLI.AllCompleted, db',
       CLI.MkStats (Z.of_nat (pending db)) (Z.of_nat (pending db)) 0
                   (Some start))
    ∧ pending db' = 0%nat
    ∧ PhraseDB.getNextPhrase db' = None.
Proof.
  intros Hreach Hlen Hyes. unfold CLI.startSession.
  cbn [CLI.fresh_stats CLI.total CLI.completed CLI.skipped].
  destruct (session_loop_all_yes clk yes rest db
              (CLI.MkStats 0 0 0 (Some start)) Hreach Hlen)
    as (db' & H & Hdone).
  { eapply Forall_impl; [exact Hyes|]. intros a Ha. unfold CLI.is_yes.
    apply bool_decide_eq_true. destruct Ha as [-> | ->]; [left|right; left]. }
  exists db'. split; [|split; [done|by apply getNextPhrase_None]].
  rewrite H. cbn [CLI.total CLI.completed CLI.skipped CLI.startTime].
  by rewrite Hlen, !Z.add_0_l.
Qed.

Lemma all_yes_completes_session_witness :
  ∃ db',
    CLI.startSession (fun t => 100 + t) 99
      (["y"; "yes"; "y"] ++ ["n"; "q"]) sample_db CLI.fresh_stats
    = (CLI.AllCompleted, db',
       CLI.MkStats (Z.of_nat (pending sample_db))
                   (Z.of_nat (pending sample_db)) 0 (Some 99))
    ∧ pending db' = 0%nat
    ∧ PhraseDB.getNextPhrase db' = None.
Proof.
  apply (all_yes_completes_session (fun t => 100 + t) 99
           ["y"; "yes"; "y"] ["n"; "q"] sample_db).
  - apply reachable_run, reachable_fresh.
  - reflexivity.
  - repeat (constructor; [auto|]). constructor.
Defined.

(** X14.  Anything that is not y, yes, n, no or q is asked again and has
    no other effect: dropping such an answer from the sequence of answers
    changes neither how the session ends, nor the store, nor the
    counters. *)
Theorem unrecognised_answer_is_ignored clk start pre bad post db st :
  bad ∉ ["y"; "yes"; "n"; "no"; "q"] →
  CLI.startSession clk start (pre ++ bad :: post) db st
  = CLI.startSession clk start (pre ++ post) db st.
Proof.
  intros Hbad. unfold CLI.startSession.
  generalize (CLI.MkStats (CLI.total st) (CLI.completed st) (CLI.skipped st)
                          (Some start)).
  clear st. revert db.
  assert (String.eqb bad "q" = false ∧ CLI.is_answer bad = false)
    as [Hq Hans].
  { split.
    - apply String.eqb_neq. intros ->. apply Hbad.
      rewrite !elem_of_cons. tauto.
    - apply bool_decide_eq_false. intros Hin. apply Hbad.
      rewrite !elem_of_cons in *. tauto. }
  induction pre as [|a pre IH]; intros db st;
    (destruct (PhraseDB.getNextPhrase db) as [q|] eqn:Hnext;
     [|by rewrite !session_loop_done]).
  - cbn [app]. by rewrite (session_loop_cons _ _ _ _ _ _ Hnext), Hq, Hans.
  - rewrite <- !app_comm_cons, !(session_loop_cons _ _ _ _ _ _ Hnext).
    destruct (String.eqb a "q"); [done|].
    destruct (CLI.is_answer a); apply IH.
Qed.

Lemma unrecognised_answer_is_ignored_witness :
  ("maybe" ∉ ["y"; "yes"; "n"; "no"; "q"])
  ∧ CLI.startSession (fun t => 100 + t) 99 (["y"] ++ "maybe" :: ["n"])
      sample_db CLI.fresh_stats
    = CLI.startSession (fun t => 100 + t) 99 (["y"] ++ ["n"])
        sample_db CLI.fresh_stats.
Proof.
  assert ("maybe" ∉ ["y"; "yes"; "n"; "no"; "q"]) as H.
  { rewrite !not_elem_of_cons. repeat split; try discriminate.
    apply not_elem_of_nil. }
  split; [exact H|].
  apply (unrecognised_answer_is_ignored (fun t => 100 + t) 99
           ["y"] "maybe" ["n"] sample_db CLI.fresh_stats H).
Defined.

Lemma session_loop_ending clk answers : ∀ db st e db' st',
  CLI.session_loop clk answers db st = (e, db', st') →
  (e = CLI.AllCompleted ↔ pending db' = 0%nat)
  ∧ (e = CLI.QuitByUser → "q" ∈ answers).
Proof.
  induction answers as [|a rest IH]; intros db st e db' st';
    (destruct (PhraseDB.getNextPhrase db) as [q|] eqn:Hnext;
     [|rewrite session_loop_done by done; intros [= <- <- <-];
       apply getNextPhrase_None in Hnext; by split]).
  - rewrite (session_loop_nil _ _ _ _ Hnext). intros [= <- <- <-].
    split; [|done]. split; [done|].
    intros Hz%getNextPhrase_None. congruence.
  - rewrite (session_loop_cons _ _ _ _ _ _ Hnext).
    destruct (String.eqb_spec a "q") as [->|Hq].
    + intros [= <- <- <-]. split; [|intros _; by left].
      split; [done|]. intros Hz%getNextPhrase_None. congruence.
    + destruct (CLI.is_answer a); intros [H1 H2]%IH;
        (split; [done|]); intros He; right; by apply H2.
Qed.

(** X15.  How a session can end.  It shows the completion message exactly
    when the store it leaves has no incomplete record; in every other
    case a phrase is still due.  It ends as "quit" only if the user
    typed q. *)
Theorem session_ends_completed_iff_nothing_pending
    clk start answers db st e db' st' :
  CLI.startSession clk start answers db st = (e, db', st') →
  (e = CLI.AllCompleted ↔ PhraseDB.getNextPhrase db' = None)
  ∧ (e = CLI.AllCompleted ↔ ∀ r, r ∈ phrases db' → Row.completed r ≠ 0)
  ∧ (e = CLI.QuitByUser → "q" ∈ answers).
Proof.
  unfold CLI.startSession. intros [H1 H2]%session_loop_ending.
  split; [by rewrite getNextPhrase_None|]. split; [|done].
  rewrite H1. unfold pending. rewrite <- filter_nil_length. split.
  - intros Hnil r Hr Hc.
    assert (r ∈ List.filter (fun r => Row.completed r =? 0) (phrases db'))
      as Hin by (apply elem_of_filter_bool; split; [done|lia]).
    rewrite Hnil in Hin. by apply elem_of_nil in Hin.
  - intros Hall.
    destruct (List.filter _ (phrases db')) as [|r rows] eqn:Hf; [done|].
    assert (r ∈ List.filter (fun r => Row.completed r =? 0) (phrases db'))
      as Hin by (rewrite Hf; left).
    apply elem_of_filter_bool in Hin as [Hin Hc]. destruct (Hall r Hin). lia.
Qed.

Lemma session_ends_completed_iff_nothing_pending_witness :
  CLI.startSession (fun t => 100 + t) 99 ["y"; "q"] sample_db CLI.fresh_stats
  = (CLI.QuitByUser,
     (CLI.startSession (fun t => 100 + t) 99 ["y"; "q"] sample_db
        CLI.fresh_stats).1.2,
     CLI.MkStats 1 1 0 (Some 99))
  ∧ (CLI.QuitByUser = CLI.QuitByUser → "q" ∈ ["y"; "q"]).
Proof.
  split; [vm_compute; reflexivity|].
  apply (session_ends_completed_iff_nothing_pending (fun t => 100 + t) 99
           ["y"; "q"] sample_db CLI.fresh_stats CLI.QuitByUser
           (CLI.startSession (fun t => 100 + t) 99 ["y"; "q"] sample_db
              CLI.fresh_stats).1.2 (CLI.MkStats 1 1 0 (Some 99))).
  vm_compute; reflexivity.
Defined.

(** * The import on the parsed document *)

(** ** Strings on their way into the table and back *)

Lemma of_text_cons a t : of_text (String a t) = Byte a :: of_text t.
Proof. reflexivity. Qed.

Lemma to_text_of_text t : to_text (of_text t) = t.
Proof.
  induction t as [|a t IH]; [done|]. rewrite of_text_cons. cbn. by rewrite IH.
Qed.

Lemma of_text_inj t1 t2 : of_text t1 = of_text t2 → t1 = t2.
Proof. intros H. by rewrite <- (to_text_of_text t1), H, to_text_of_text. Qed.

Lemma of_text_append a b : of_text (a +:+ b) = of_text a ++ of_text b.
Proof.
  induction a as [|c a IH]; [done|].
  rewrite append_cons, !of_text_cons, IH. reflexivity.
Qed.

Lemma elem_of_map_of_text t l : of_text t ∈ map of_text l ↔ t ∈ l.
Proof.
  rewrite elem_of_map. split.
  - by intros (t' & ->%of_text_inj & Ht').
  - intros Ht. by exists t.
Qed.

Lemma Parsed_key_of_text ru en level :
  Parsed.key (of_text ru) (of_text en) (of_text level)
  = of_text (key ru en level).
Proof. unfold Parsed.key, key. by rewrite !of_text_append. Qed.

Lemma Parsed_existingSet_of existing k :
  of_text k ∈ Parsed.existingSet_of existing ↔ k ∈ existingSet_of existing.
Proof.
  unfold Parsed.existingSet_of, existingSet_of.
  rewrite !elem_of_list_to_set, !elem_of_map. split.
  - intros (t & Hk & Ht). rewrite Parsed_key_of_text in Hk.
    apply of_text_inj in Hk. by exists t.
  - intros (t & -> & Ht). exists t. split; [|done].
    by rewrite Parsed_key_of_text.
Qed.

Lemma elem_of_stored_keys db k :
  k ∈ stored_keys db ↔
  ∃ r, r ∈ phrases db
       ∧ k = Parsed.key (of_text (Row.ru r)) (of_text (Row.en r))
                        (of_text (Row.level r)).
Proof.
  unfold stored_keys, Parsed.existingSet_of, statements.getAllPhrases.
  rewrite elem_of_list_to_set, elem_of_map. split.
  - intros (t & -> & (r & -> & Hr)%elem_of_map). by exists r.
  - intros (r & Hr & ->). eexists. split; [|apply elem_of_map; by exists r].
    reflexivity.
Qed.

(** ** Candidates are elements *)

Lemma truthy_value_of v : Parsed.truthy (value_of v) = truthy v.
Proof.
  destruct v as [[|a t]|]; [done| |done].
  unfold value_of, Parsed.truthy, truthy.
  by rewrite bool_decide_eq_false_2.
Qed.

Lemma LEVELS_includes_value_of v :
  Parsed.LEVELS_includes (value_of v) = LEVELS_includes v.
Proof.
  destruct v as [t|]; [|done].
  unfold value_of, Parsed.LEVELS_includes, LEVELS_includes.
  apply bool_decide_ext, elem_of_map_of_text.
Qed.

Lemma is_valid_item_of c : Parsed.is_valid (item_of c) = is_valid c.
Proof.
  unfold Parsed.is_valid, is_valid, item_of. cbn.
  by rewrite !truthy_value_of, LEVELS_includes_value_of.
Qed.

Lemma to_string_value_of v :
  Parsed.to_string (value_of v) = Some (of_text (to_string v)).
Proof. by destruct v. Qed.

Lemma item_key_item_of c :
  Parsed.item_key (item_of c) = Some (of_text (candidate_key c)).
Proof.
  unfold Parsed.item_key, candidate_key, item_of.
  cbn [Item.ru Item.en Item.level].
  rewrite !to_string_value_of. cbv beta iota.
  by rewrite Parsed_key_of_text.
Qed.

Lemma bound_args_item_of c :
  Parsed.bound_args (item_of c)
  = Ok (map (fun v => match v with
                      | Some t => BoundText t
                      | None => BoundNull
                      end)
            [Candidate.ru c; Candidate.en c; Candidate.level c]).
Proof.
  destruct c as [[r|] [e|] [l|]]; unfold Parsed.bound_args, item_of;
    cbn -[to_text of_text]; by rewrite ?to_text_of_text.
Qed.

Lemma run_insert_item_of now c db :
  Parsed.run_insert now (item_of c) db = run_insert now c db.
Proof.
  unfold Parsed.run_insert. rewrite bound_args_item_of.
  by destruct c as [[r|] [e|] [l|]].
Qed.

Lemma insertTx_body_item_of clk existing todo : ∀ n st,
  Parsed.insertTx_body clk (Parsed.existingSet_of existing) n
    (map item_of todo) st
  = insertTx_body clk (existingSet_of existing) n todo st.
Proof.
  induction todo as [|c todo IH]; intros n st; [done|].
  cbn [map Parsed.insertTx_body insertTx_body].
  rewrite item_key_item_of.
  rewrite (bool_decide_ext _ _ (Parsed_existingSet_of existing _)).
  destruct (bool_decide _); [by apply IH|].
  rewrite run_insert_item_of.
  destruct (run_insert _ _ _); [by apply IH|done].
Qed.

Lemma validPhrases_of_item_of elems :
  Parsed.validPhrases_of (map (fun c => EObject (item_of c)) elems)
  = Ok (map item_of (validPhrases_of elems)).
Proof.
  induction elems as [|c elems IH]; [done|].
  cbn [map Parsed.validPhrases_of]. rewrite IH, is_valid_item_of.
  unfold validPhrases_of. cbn [List.filter].
  by destruct (is_valid c).
Qed.

(** On a document of candidates the two imports are the same function:
    what is proved of [PhraseDB.importPhrases] holds of the import of
    such a document. *)
Lemma Parsed_import_of_candidates clk parsed db :
  Parsed.importPhrases clk (document_of parsed) db
  = PhraseDB.importPhrases clk parsed db.
Proof.
  destruct parsed as [elems|]; [|done].
  unfold Parsed.importPhrases, PhraseDB.importPhrases, document_of, transaction.
  rewrite validPhrases_of_item_of, length_map. cbv zeta.
  by rewrite insertTx_body_item_of.
Qed.

(** ** The filter *)

Lemma has_null_cons e elems :
  has_null (e :: elems)
  = match e with ENull => true | EObject _ => has_null elems end.
Proof. by destruct e. Qed.

Lemma has_null_app l k : has_null (l ++ k) = has_null l || has_null k.
Proof. apply existsb_app. Qed.

Lemma objects_of_app l k : objects_of (l ++ k) = objects_of l ++ objects_of k.
Proof.
  induction l as [|[|p] l IH]; [done|done|]. cbn. by rewrite IH.
Qed.

Lemma kept_of_cons p elems :
  kept_of (EObject p :: elems)
  = if Parsed.is_valid p then p :: kept_of elems else kept_of elems.
Proof. reflexivity. Qed.

Lemma elem_of_objects_of p elems : p ∈ objects_of elems ↔ EObject p ∈ elems.
Proof.
  induction elems as [|[|q] elems IH]; cbn [objects_of].
  - split; by intros ?%elem_of_nil.
  - rewrite IH, elem_of_cons. split; [by right|]. by intros [?|?].
  - rewrite !elem_of_cons, IH. split.
    + intros [->|?]; [by left|by right].
    + intros [[= ->]|?]; [by left|by right].
Qed.

Lemma elem_of_kept_of p elems :
  p ∈ kept_of elems ↔ EObject p ∈ elems ∧ Parsed.is_valid p = true.
Proof.
  unfold kept_of. by rewrite elem_of_filter_bool, elem_of_objects_of.
Qed.

Lemma validPhrases_of_spec elems :
  Parsed.validPhrases_of elems
  = if has_null elems then Err TypeError else Ok (kept_of elems).
Proof.
  induction elems as [|[|p] elems IH]; [done|done|].
  cbn [Parsed.validPhrases_of]. rewrite IH, has_null_cons, kept_of_cons.
  by destruct (has_null elems).
Qed.

(** The import of an array, step by step. *)
Lemma importPhrases_array clk elems db :
  Parsed.importPhrases clk (Doc_array elems) db
  = if has_null elems then (db, Thrown TypeError)
    else
      match kept_of elems with
      | [] => (db, Warned)
      | _ :: _ =>
          match Parsed.insertTx_body clk (stored_keys db) 0 (kept_of elems)
                  (MkLoop db 0 0) with
          | Ok st => (ls_db st, Reported (ls_inserted st) (ls_skipped st))
          | Err e => (db, Thrown e)
          end
      end.
Proof.
  unfold Parsed.importPhrases, transaction. rewrite validPhrases_of_spec.
  destruct (has_null elems); [done|]. cbv zeta. fold (stored_keys db).
  destruct (kept_of elems) as [|p ps]; [done|]. cbn [length Nat.eqb].
  by destruct (Parsed.insertTx_body _ _ _ _ _).
Qed.

(** ** The loop *)

Lemma fresh_items_cons ex p todo :
  fresh_items ex (p :: todo)
  = if skipped_by ex p then fresh_items ex todo else p :: fresh_items ex todo.
Proof. unfold fresh_items. cbn [List.filter]. by destruct (skipped_by ex p). Qed.

Lemma skipped_by_key ex p :
  skipped_by ex p = true → ∃ k, Parsed.item_key p = Some k ∧ k ∈ ex.
Proof.
  unfold skipped_by. destruct (Parsed.item_key p) as [k|]; [|discriminate].
  intros ?%bool_decide_eq_true. by exists k.
Qed.

Lemma Parsed_loop_cons clk ex n p todo st :
  Parsed.insertTx_body clk ex n (p :: todo) st
  = match Parsed.item_key p with
    | None => Err TypeError
    | Some _ =>
        if skipped_by ex p
        then Parsed.insertTx_body clk ex (S n) todo
               (MkLoop (ls_db st) (ls_inserted st) (ls_skipped st + 1))
        else
          match Parsed.run_insert (clk n) p (ls_db st) with
          | Err e => Err e
          | Ok db' =>
              Parsed.insertTx_body clk ex (S n) todo
                (MkLoop db' (ls_inserted st + 1) (ls_skipped st))
          end
    end.
Proof.
  cbn [Parsed.insertTx_body]. unfold skipped_by.
  by destruct (Parsed.item_key p).
Qed.

Lemma Parsed_run_insert_Ok now p db db' :
  Parsed.run_insert now p db = Ok db' →
  ∃ r e l, stored_triple p = Some (r, e, l)
           ∧ statements.insertPhrase now r e l db = Ok db'.
Proof.
  unfold Parsed.run_insert, stored_triple.
  destruct (Parsed.bound_args p) as [bs|err]; [|discriminate].
  destruct (Parsed.texts_of bs) as [[[r e] l]|]; [|discriminate].
  intros H. by exists r, e, l.
Qed.

(** What a loop that runs to its end has done. *)
Lemma Parsed_loop_Ok clk ex todo : ∀ n st st',
  Parsed.insertTx_body clk ex n todo st = Ok st' →
  ls_inserted st' = ls_inserted st + Z.of_nat (length (fresh_items ex todo))
  ∧ ls_inserted st' + ls_skipped st'
    = ls_inserted st + ls_skipped st + Z.of_nat (length todo)
  ∧ ∃ news,
      phrases (ls_db st') = phrases (ls_db st) ++ news
      ∧ Forall2 (fun r p =>
                   stored_triple p = Some (Row.ru r, Row.en r, Row.level r))
                news (fresh_items ex todo)
      ∧ Forall (inserted_after (phrases (ls_db st))) news.
Proof.
  induction todo as [|p todo IH]; intros n st st'.
  - cbn. intros [= <-]. split; [lia|]. split; [lia|].
    exists []. rewrite app_nil_r. by repeat constructor.
  - rewrite Parsed_loop_cons, fresh_items_cons.
    destruct (Parsed.item_key p) as [k|]; [|discriminate].
    destruct (skipped_by ex p).
    + intros H. apply IH in H as (Hi & Hs & news & Hn & Hm & Hf).
      cbn [ls_db ls_inserted ls_skipped] in *. rewrite length_cons.
      split; [lia|]. split; [lia|]. by exists news.
    + destruct (Parsed.run_insert _ p _) as [db1|] eqn:Hrun; [|discriminate].
      intros H. apply IH in H as (Hi & Hs & news & Hn & Hm & Hf).
      cbn [ls_db ls_inserted ls_skipped] in *. rewrite !length_cons.
      apply Parsed_run_insert_Ok in Hrun as (r & e & l & Ht & Hins).
      apply insertPhrase_Ok in Hins as (i & Hrows & Hi' & Hc1 & Hc2 & Hc3).
      split; [lia|]. split; [lia|].
      exists (Row.Make i r e l 0 (clk n) (clk n) :: news).
      split; [|split].
      * rewrite Hn, Hrows, <- app_assoc. reflexivity.
      * by constructor.
      * constructor; [by repeat split|].
        eapply Forall_impl; [exact Hf|]. intros x (Hx & ?).
        split; [|done]. rewrite Hrows, max_rowid_app in Hx. lia.
Qed.

(** When every key is already in the set the loop only counts. *)
Lemma Parsed_loop_all_dup clk ex todo : ∀ n st,
  Forall (fun p => skipped_by ex p = true) todo →
  Parsed.insertTx_body clk ex n todo st
  = Ok (MkLoop (ls_db st) (ls_inserted st)
               (ls_skipped st + Z.of_nat (length todo))).
Proof.
  induction todo as [|p todo IH]; intros n st Hall.
  - destruct st; cbn. do 2 f_equal. lia.
  - apply Forall_cons in Hall as [Hp Hrest].
    rewrite Parsed_loop_cons, Hp.
    destruct (skipped_by_key _ _ Hp) as (k & -> & _).
    rewrite IH by done. cbn [ls_db ls_inserted ls_skipped].
    rewrite length_cons. do 2 f_equal. lia.
Qed.

Lemma Parsed_run_insert_same_ids now now' p db1 db2 :
  same_ids db1 db2 →
  match Parsed.run_insert now p db1 with
  | Ok d1 => ∃ d2, Parsed.run_insert now' p db2 = Ok d2 ∧ same_ids d1 d2
  | Err e => Parsed.run_insert now' p db2 = Err e
  end.
Proof.
  intros Hsame. unfold Parsed.run_insert.
  destruct (Parsed.bound_args p) as [bs|err]; [|done].
  destruct (Parsed.texts_of bs) as [[[r e] l]|]; [|done].
  by apply insertPhrase_same_ids.
Qed.

(** Whether the loop fails, and with which error, does not depend on
    the clock. *)
Lemma Parsed_loop_same_ids clk clk' ex todo : ∀ n n' st1 st2,
  same_ids (ls_db st1) (ls_db st2) →
  match Parsed.insertTx_body clk ex n todo st1 with
  | Ok _ => ∃ st, Parsed.insertTx_body clk' ex n' todo st2 = Ok st
  | Err e => Parsed.insertTx_body clk' ex n' todo st2 = Err e
  end.
Proof.
  induction todo as [|p todo IH]; intros n n' st1 st2 Hsame.
  - cbn. by eexists.
  - rewrite !Parsed_loop_cons.
    destruct (Parsed.item_key p) as [k|]; [|done].
    destruct (skipped_by ex p); [by apply IH|].
    pose proof (Parsed_run_insert_same_ids (clk n) (clk' n') p _ _ Hsame)
      as Hins.
    destruct (Parsed.run_insert (clk n) p (ls_db st1)) as [d1|e1].
    + destruct Hins as (d2 & -> & Hsame'). by apply IH.
    + by rewrite Hins.
Qed.

Lemma Parsed_run_insert_room now p db :
  last_rowid db < MAX_ROWID →
  match insert_failure p with
  | Some e => Parsed.run_insert now p db = Err e
  | None => ∃ db', Parsed.run_insert now p db = Ok db'
                   ∧ last_rowid db' = last_rowid db + 1
  end.
Proof.
  intros Hroom. unfold insert_failure, Parsed.run_insert.
  destruct (Parsed.bound_args p) as [bs|err]; [|done].
  destruct (Parsed.texts_of bs) as [[[r e] l]|]; [|done].
  destruct (statements.insertPhrase now r e l db) as [db'|err] eqn:Hins.
  - pose proof (last_rowid_insert _ _ _ _ _ _ Hins) as Hlast.
    apply insertPhrase_Ok in Hins as (i & _ & _ & -> & -> & ->).
    cbn [andb]. eauto.
  - unfold statements.insertPhrase in Hins.
    destruct (check_ru r && check_en e && check_level l); cbn [negb] in Hins.
    + fold (last_rowid db) in Hins.
      destruct (Z.leb_spec MAX_ROWID (last_rowid db)); [lia|discriminate].
    + congruence.
Qed.

(** With room in the rowid counter the loop stops exactly at the first
    item that cannot be processed. *)
Lemma Parsed_loop_room clk ex todo : ∀ n st,
  last_rowid (ls_db st) + Z.of_nat (length todo) <= MAX_ROWID →
  match first_failure ex todo with
  | Some e => Parsed.insertTx_body clk ex n todo st = Err e
  | None => ∃ st', Parsed.insertTx_body clk ex n todo st = Ok st'
  end.
Proof.
  induction todo as [|p todo IH]; intros n st Hroom.
  - cbn. by eexists.
  - rewrite length_cons in Hroom.
    rewrite Parsed_loop_cons. cbn [first_failure].
    destruct (Parsed.item_key p) as [k|]; [|done].
    destruct (skipped_by ex p).
    + apply IH. cbn [ls_db]. lia.
    + pose proof (Parsed_run_insert_room (clk n) p (ls_db st)) as Hins.
      destruct (insert_failure p) as [e|].
      * rewrite Hins; [done|lia].
      * destruct Hins as (db' & -> & Hlast); [lia|].
        apply IH. cbn [ls_db]. lia.
Qed.

(** ** Whole imports *)

(** An import that does not complete leaves the store as it was. *)
Lemma Parsed_import_not_Reported clk parsed db :
  (∀ ins sk, (Parsed.importPhrases clk parsed db).2 ≠ Reported ins sk) →
  (Parsed.importPhrases clk parsed db).1 = db.
Proof.
  destruct parsed as [elems|]; [|done]. rewrite importPhrases_array.
  destruct (has_null elems); [done|]. destruct (kept_of elems); [done|].
  destruct (Parsed.insertTx_body _ _ _ _ _) as [st|]; [|done].
  intros H. by destruct (H (ls_inserted st) (ls_skipped st)).
Qed.

Lemma Parsed_import_Reported clk elems db db' ins sk :
  Parsed.importPhrases clk (Doc_array elems) db = (db', Reported ins sk) →
  has_null elems = false ∧ kept_of elems ≠ []
  ∧ Parsed.insertTx_body clk (stored_keys db) 0 (kept_of elems)
      (MkLoop db 0 0)
    = Ok (MkLoop db' ins sk).
Proof.
  rewrite importPhrases_array.
  destruct (has_null elems); [discriminate|].
  destruct (kept_of elems) as [|p ps] eqn:Hk; [discriminate|].
  destruct (Parsed.insertTx_body _ _ _ _ _) as [[d i k]|]; [|discriminate].
  cbn [ls_db ls_inserted ls_skipped]. by intros [= <- <- <-].
Qed.

Lemma Parsed_import_counts clk elems db db' ins sk :
  Parsed.importPhrases clk (Doc_array elems) db = (db', Reported ins sk) →
  ins = Z.of_nat (length (fresh_items (stored_keys db) (kept_of elems)))
  ∧ ins + sk = Z.of_nat (length (kept_of elems))
  ∧ ∃ news,
      phrases db' = phrases db ++ news
      ∧ Forall2 (fun r p =>
                   stored_triple p = Some (Row.ru r, Row.en r, Row.level r))
                news (fresh_items (stored_keys db) (kept_of elems))
      ∧ Forall (inserted_after (phrases db)) news.
Proof.
  intros (_ & _ & H)%Parsed_import_Reported.
  apply Parsed_loop_Ok in H. cbn [ls_db ls_inserted ls_skipped] in H.
  destruct H as (Hi & Hs & Hn). split; [lia|]. split; [lia|]. exact Hn.
Qed.

(** Whether an import reports, warns or throws, and which error it
    throws, is the same at any time of day. *)
Lemma Parsed_import_clock clk clk' parsed db :
  match (Parsed.importPhrases clk parsed db).2 with
  | Reported _ _ =>
      ∃ ins sk, (Parsed.importPhrases clk' parsed db).2 = Reported ins sk
  | o => (Parsed.importPhrases clk' parsed db).2 = o
  end.
Proof.
  destruct parsed as [elems|]; [|done]. rewrite !importPhrases_array.
  destruct (has_null elems); [done|].
  destruct (kept_of elems) as [|p ps]; [done|].
  pose proof (Parsed_loop_same_ids clk clk' (stored_keys db) (p :: ps) 0 0
                (MkLoop db 0 0) (MkLoop db 0 0)) as H.
  destruct (Parsed.insertTx_body clk _ _ _ _) as [st|e].
  - destruct H as [st' ->]; [by split|]. cbn. eauto.
  - rewrite H; [done|by split].
Qed.

(** With room in the rowid counter the source and the stored keys decide
    how the import ends. *)
Lemma Parsed_import_room clk elems db :
  has_null elems = false → kept_of elems ≠ [] →
  last_rowid db + Z.of_nat (length (kept_of elems)) <= MAX_ROWID →
  match first_failure (stored_keys db) (kept_of elems) with
  | Some e => Parsed.importPhrases clk (Doc_array elems) db = (db, Thrown e)
  | None =>
      ∃ db' ins sk,
        Parsed.importPhrases clk (Doc_array elems) db
        = (db', Reported ins sk)
  end.
Proof.
  intros Hnull Hne Hroom. rewrite importPhrases_array, Hnull.
  pose proof (Parsed_loop_room clk (stored_keys db) (kept_of elems) 0
                (MkLoop db 0 0) Hroom) as Hbody.
  destruct (kept_of elems) as [|p ps] eqn:Hk; [done|].
  destruct (first_failure _ _).
  - by rewrite Hbody.
  - destruct Hbody as (st' & ->). eauto.
Qed.

Lemma Forall2_elem_of_r {A B} (P : A → B → Prop) l k y :
  Forall2 P l k → y ∈ k → ∃ x, x ∈ l ∧ P x y.
Proof.
  induction 1 as [|x y' l k HP _ IH]; [by intros ?%elem_of_nil|].
  intros [->|Hy]%elem_of_cons.
  - exists x. split; [apply elem_of_cons; by left|done].
  - destruct (IH Hy) as (x' & ? & ?). exists x'.
    split; [apply elem_of_cons; by right|done].
Qed.

Lemma Forall2_elem_of_l {A B} (P : A → B → Prop) l k x :
  Forall2 P l k → x ∈ l → ∃ y, y ∈ k ∧ P x y.
Proof.
  induction 1 as [|x' y l k HP _ IH]; [by intros ?%elem_of_nil|].
  intros [->|Hx]%elem_of_cons.
  - exists y. split; [apply elem_of_cons; by left|done].
  - destruct (IH Hx) as (y' & ? & ?). exists y'.
    split; [apply elem_of_cons; by right|done].
Qed.

(** After a completed import of a source whose kept candidates are looked
    up under the key of what is stored for them, every kept candidate is
    a duplicate. *)
Lemma Parsed_import_again clk1 clk2 elems db db1 ins sk :
  forallb reads_back (kept_of elems) = true →
  Parsed.importPhrases clk1 (Doc_array elems) db = (db1, Reported ins sk) →
  Parsed.importPhrases clk2 (Doc_array elems) db1
  = (db1, Reported 0 (Z.of_nat (length (kept_of elems)))).
Proof.
  intros Hback H1.
  pose proof (Parsed_import_Reported _ _ _ _ _ _ H1) as (Hnull & Hne & _).
  apply Parsed_import_counts in H1 as (_ & _ & news & Hn & Hm & _).
  assert (Forall (fun p => skipped_by (stored_keys db1) p = true)
                 (kept_of elems)) as Hdup.
  { apply Forall_forall. intros p Hp.
    destruct (skipped_by (stored_keys db) p) eqn:Hin.
    - apply skipped_by_key in Hin
        as (k & Hk & (r & Hr & ->)%elem_of_stored_keys).
      unfold skipped_by. rewrite Hk.
      apply bool_decide_eq_true, elem_of_stored_keys.
      exists r. split; [|done]. rewrite Hn. apply elem_of_app. by left.
    - assert (p ∈ fresh_items (stored_keys db) (kept_of elems)) as Hfresh.
      { unfold fresh_items. apply elem_of_filter_bool. by rewrite Hin. }
      destruct (Forall2_elem_of_r _ _ _ _ Hm Hfresh) as (r & Hr & Ht).
      pose proof (proj1 (forallb_forall _ _) Hback p
                    (proj1 (list_elem_of_In _ _) Hp)) as Hrb.
      unfold reads_back in Hrb. rewrite Ht in Hrb.
      apply bool_decide_eq_true in Hrb. cbn [fst snd] in Hrb.
      unfold skipped_by. rewrite Hrb.
      apply bool_decide_eq_true, elem_of_stored_keys.
      exists r. split; [|done]. rewrite Hn. apply elem_of_app. by right. }
  rewrite importPhrases_array, Hnull.
  destruct (kept_of elems) as [|p ps] eqn:Hk; [done|].
  rewrite (Parsed_loop_all_dup _ _ _ _ _ Hdup). reflexivity.
Qed.

Lemma Parsed_import_rerun clk1 clk2 parsed db :
  (∀ elems, parsed = Doc_array elems →
            forallb reads_back (kept_of elems) = true) →
  (Parsed.importPhrases clk2 parsed
     (Parsed.importPhrases clk1 parsed db).1).1
  = (Parsed.importPhrases clk1 parsed db).1
  ∧ exit_code (Parsed.importPhrases clk2 parsed
                 (Parsed.importPhrases clk1 parsed db).1).2
    = exit_code (Parsed.importPhrases clk1 parsed db).2
  ∧ ((∀ ins sk, (Parsed.importPhrases clk1 parsed db).2 ≠ Reported ins sk) →
     Parsed.importPhrases clk2 parsed (Parsed.importPhrases clk1 parsed db).1
     = Parsed.importPhrases clk1 parsed db).
Proof.
  intros Hback.
  pose proof (Parsed_import_not_Reported clk1 parsed db) as Hsame.
  pose proof (Parsed_import_clock clk1 clk2 parsed db) as Hclock.
  pose proof (Parsed_import_not_Reported clk2 parsed db) as Hsame2.
  destruct (Parsed.importPhrases clk1 parsed db) as [db1 o] eqn:H1.
  cbn [fst snd] in *.
  assert ((∀ ins sk, o ≠ Reported ins sk) →
          Parsed.importPhrases clk2 parsed db1 = (db1, o)) as Hstay.
  { intros Hno. rewrite (Hsame Hno) in *.
    destruct (Parsed.importPhrases clk2 parsed db) as [db2 o2].
    cbn [fst snd] in *.
    assert (o2 = o) as -> by (by destruct o; [| |destruct (Hno inserted skipped)]).
    by rewrite Hsame2. }
  destruct o as [e| |ins sk].
  - rewrite Hstay by done. done.
  - rewrite Hstay by done. done.
  - destruct parsed as [elems|]; [|discriminate].
    rewrite (Parsed_import_again _ clk2 _ _ _ _ _ (Hback elems eq_refl) H1).
    split; [done|]. split; [done|]. intros Hno. by destruct (Hno ins sk).
Qed.

(** ** Importing a source twice *)

(** A candidate is looked up under the key of what is stored for it. *)
Lemma reads_back_item_of c : reads_back (item_of c) = true.
Proof.
  unfold reads_back, stored_triple.
  rewrite bound_args_item_of, item_key_item_of.
  destruct c as [[r|] [e|] [l|]]; try reflexivity.
  cbn [map Parsed.texts_of Candidate.ru Candidate.en Candidate.level fst snd].
  apply bool_decide_eq_true. by rewrite Parsed_key_of_text.
Qed.

Lemma candidates_read_back elems :
  forallb reads_back (kept_of (map (fun c => EObject (item_of c)) elems))
  = true.
Proof.
  apply forallb_forall. intros p Hp%list_elem_of_In.
  apply elem_of_kept_of in Hp as [(c & [= ->] & _)%elem_of_map _].
  apply reads_back_item_of.
Qed.

(** C3.  Importing a source twice.  Take a source array whose kept
    candidates are all looked up under the key of what is stored for
    them.  Then a second import leaves the store as the first left it.
    When the first import ended with its report, the second reports
    inserted=0 and skipped=N, with N the number of kept candidates, which
    is also inserted+skipped of the first report.  When the first import
    ended otherwise (the warning about an empty batch, or an error) the
    second ends the same way on the same store.  The first import does
    end with its report when no element is [null], some candidate is
    kept, every kept candidate that is not skipped can be stored, and the
    rowid counter has room; it ends with the warning exactly when no
    element is [null] and no candidate is kept. *)
Theorem import_idempotent_when_read_back clk1 clk2 elems db :
  forallb reads_back (kept_of elems) = true →
  (Parsed.importPhrases clk2 (Doc_array elems)
     (Parsed.importPhrases clk1 (Doc_array elems) db).1).1
  = (Parsed.importPhrases clk1 (Doc_array elems) db).1
  ∧ (∀ ins sk,
       (Parsed.importPhrases clk1 (Doc_array elems) db).2 = Reported ins sk →
       (Parsed.importPhrases clk2 (Doc_array elems)
          (Parsed.importPhrases clk1 (Doc_array elems) db).1).2
       = Reported 0 (Z.of_nat (length (kept_of elems)))
       ∧ ins + sk = Z.of_nat (length (kept_of elems)))
  ∧ ((∀ ins sk,
        (Parsed.importPhrases clk1 (Doc_array elems) db).2 ≠ Reported ins sk) →
     Parsed.importPhrases clk2 (Doc_array elems)
       (Parsed.importPhrases clk1 (Doc_array elems) db).1
     = Parsed.importPhrases clk1 (Doc_array elems) db)
  ∧ (has_null elems = false → kept_of elems ≠ [] →
     first_failure (stored_keys db) (kept_of elems) = None →
     last_rowid db + Z.of_nat (length (kept_of elems)) <= MAX_ROWID →
     ∃ ins sk,
       (Parsed.importPhrases clk1 (Doc_array elems) db).2 = Reported ins sk)
  ∧ ((Parsed.importPhrases clk1 (Doc_array elems) db).2 = Warned ↔
     has_null elems = false ∧ kept_of elems = []).
Proof.
  intros Hback.
  destruct (Parsed_import_rerun clk1 clk2 (Doc_array elems) db)
    as (Hstore & _ & Hstay).
  { by intros ? [= <-]. }
  split; [exact Hstore|]. split; [|split; [exact Hstay|split]].
  - intros ins sk H1.
    destruct (Parsed.importPhrases clk1 (Doc_array elems) db)
      as [db1 o] eqn:Himp.
    cbn [fst snd] in *. subst o.
    rewrite (Parsed_import_again _ clk2 _ _ _ _ _ Hback Himp).
    split; [done|].
    by apply Parsed_import_counts in Himp as (_ & ? & _).
  - intros Hnull Hne Hnone Hroom.
    pose proof (Parsed_import_room clk1 elems db Hnull Hne Hroom) as H.
    rewrite Hnone in H. destruct H as (db' & ins & sk & ->). eauto.
  - rewrite importPhrases_array.
    destruct (has_null elems); [split; [discriminate|by intros [? _]]|].
    destruct (kept_of elems) as [|p ps]; [done|].
    destruct (Parsed.insertTx_body _ _ _ _ _);
      (split; [discriminate|by intros [_ ?]]).
Qed.

Lemma import_idempotent_when_read_back_witness :
  forallb reads_back
    (kept_of [EObject good_item; EObject good_item]) = true
  ∧ (Parsed.importPhrases (fun _ => 7)
       (Doc_array [EObject good_item; EObject good_item])
       (Parsed.importPhrases (fun _ => 0)
          (Doc_array [EObject good_item; EObject good_item]) empty_db).1).2
    = Reported 0 2.
Proof.
  split; [vm_compute; reflexivity|].
  destruct (import_idempotent_when_read_back (fun _ => 0) (fun _ => 7)
              [EObject good_item; EObject good_item] empty_db)
    as (_ & Hreport & _).
  - vm_compute; reflexivity.
  - destruct (Hreport 2 0) as [H _]; [vm_compute; reflexivity|exact H].
Defined.

(** A source with one kept candidate whose text starts with NUL: both
    imports throw, so the second does not report inserted=0, skipped=1. *)
Lemma import_twice_of_nul_text_throws :
  length (kept_of nul_elems) = 1%nat
  ∧ Parsed.importPhrases (fun _ => 0) (Doc_array nul_elems) empty_db
    = (empty_db, Thrown (SqliteError SQLITE_CONSTRAINT_CHECK))
  ∧ Parsed.importPhrases (fun _ => 1) (Doc_array nul_elems)
      (Parsed.importPhrases (fun _ => 0) (Doc_array nul_elems) empty_db).1
    = (empty_db, Thrown (SqliteError SQLITE_CONSTRAINT_CHECK))
  ∧ (Parsed.importPhrases (fun _ => 1) (Doc_array nul_elems)
       (Parsed.importPhrases (fun _ => 0) (Doc_array nul_elems) empty_db).1).2
    ≠ Reported 0 1.
Proof. vm_compute. repeat split; discriminate. Qed.

(** A number is stored as the text SQLite prints for it and a lone
    surrogate as U+FFFD, while the key is built from the JavaScript
    value: such a candidate is not found again, and every import of the
    source inserts it once more. *)
Example reimport_of_number_inserts_again :
  (Parsed.importPhrases (fun _ => 0) (Doc_array number_elems) empty_db).2
  = Reported 1 0
  ∧ (Parsed.importPhrases (fun _ => 1) (Doc_array number_elems)
       (Parsed.importPhrases (fun _ => 0) (Doc_array number_elems)
          empty_db).1).2
    = Reported 1 0
  ∧ statements.getAllPhrases
      (Parsed.importPhrases (fun _ => 1) (Doc_array number_elems)
         (Parsed.importPhrases (fun _ => 0) (Doc_array number_elems)
            empty_db).1).1
    = [("1.0e+21", "x", "A1"); ("1.0e+21", "x", "A1")].
Proof. vm_compute. repeat split. Qed.

Example reimport_of_lone_surrogate_inserts_again :
  (Parsed.importPhrases (fun _ => 1) (Doc_array surrogate_elems)
     (Parsed.importPhrases (fun _ => 0) (Doc_array surrogate_elems)
        empty_db).1).2
  = Reported 1 0
  ∧ length
      (phrases
         (Parsed.importPhrases (fun _ => 1) (Doc_array surrogate_elems)
            (Parsed.importPhrases (fun _ => 0) (Doc_array surrogate_elems)
               empty_db).1).1)
    = 2%nat.
Proof. vm_compute. repeat split. Qed.

(** ** The filter and what it lets through *)

Lemma Parsed_truthy_string s : Parsed.truthy (JString s) = true ↔ s ≠ [].
Proof.
  unfold Parsed.truthy. rewrite negb_true_iff, bool_decide_eq_false. done.
Qed.

Lemma Parsed_LEVELS_includes_iff v :
  Parsed.LEVELS_includes v = true ↔ ∃ l, l ∈ LEVELS ∧ v = JString (of_text l).
Proof.
  split.
  - destruct v as [| | | |s| |]; try discriminate.
    unfold Parsed.LEVELS_includes.
    intros (l & -> & Hl)%bool_decide_eq_true%elem_of_map. by exists l.
  - intros (l & Hl & ->). unfold Parsed.LEVELS_includes.
    by apply bool_decide_eq_true, elem_of_map_of_text.
Qed.

Lemma Parsed_is_valid_iff p :
  Parsed.is_valid p = true ↔
  Parsed.truthy (Item.ru p) = true ∧ Parsed.truthy (Item.en p) = true
  ∧ ∃ l, l ∈ LEVELS ∧ Item.level p = JString (of_text l).
Proof.
  unfold Parsed.is_valid.
  rewrite !andb_true_iff, Parsed_LEVELS_includes_iff. tauto.
Qed.

(** C9.  The filter.  A candidate (an element that is not [null]) is kept
    exactly when its [ru] is truthy, its [en] is truthy and its [level]
    is one of the six level strings; for a candidate whose [ru] and [en]
    are strings or missing that is: [ru] and [en] are non-empty strings
    and [level] is one of the six.  The kept candidates are exactly the
    ones the import processes, in the order of the array.  A candidate
    that is not kept is dropped: removing it from the array changes
    neither the outcome of the import nor the resulting store.  Every
    record an import adds is the stored form of a kept candidate of the
    array, on a report inserted+skipped is the number of kept
    candidates, and an import with a kept candidate never ends with the
    warning about an empty batch. *)
Theorem filter_keeps_truthy_candidates :
  (∀ p, Parsed.is_valid p = true ↔
        Parsed.truthy (Item.ru p) = true ∧ Parsed.truthy (Item.en p) = true
        ∧ ∃ l, l ∈ ["A1"; "A2"; "B1"; "B2"; "C1"; "C2"]
               ∧ Item.level p = JString (of_text l))
  ∧ (∀ p, string_or_missing (Item.ru p) = true →
          string_or_missing (Item.en p) = true →
          (Parsed.is_valid p = true ↔
           ∃ r e l, Item.ru p = JString r ∧ r ≠ []
                    ∧ Item.en p = JString e ∧ e ≠ []
                    ∧ Item.level p = JString (of_text l)
                    ∧ l ∈ ["A1"; "A2"; "B1"; "B2"; "C1"; "C2"]))
  ∧ (∀ elems, has_null elems = false →
       Parsed.validPhrases_of elems = Ok (kept_of elems)
       ∧ ∀ p, p ∈ kept_of elems ↔
              EObject p ∈ elems ∧ Parsed.is_valid p = true)
  ∧ (∀ clk pre p post db,
       Parsed.is_valid p = false →
       Parsed.importPhrases clk (Doc_array (pre ++ EObject p :: post)) db
       = Parsed.importPhrases clk (Doc_array (pre ++ post)) db)
  ∧ (∀ clk elems db r,
       r ∈ phrases (Parsed.importPhrases clk (Doc_array elems) db).1 →
       r ∈ phrases db
       ∨ ∃ p, EObject p ∈ elems ∧ Parsed.is_valid p = true
              ∧ stored_triple p = Some (Row.ru r, Row.en r, Row.level r))
  ∧ (∀ clk elems db ins sk,
       (Parsed.importPhrases clk (Doc_array elems) db).2 = Reported ins sk →
       ins + sk = Z.of_nat (length (kept_of elems)))
  ∧ (∀ clk elems db,
       kept_of elems ≠ [] →
       (Parsed.importPhrases clk (Doc_array elems) db).2 ≠ Warned).
Proof.
  split; [exact Parsed_is_valid_iff|].
  split; [|split; [|split; [|split; [|split]]]].
  - intros p Hr He. rewrite Parsed_is_valid_iff. split.
    + intros (Htr & Hte & l & Hl & Hlv).
      destruct (Item.ru p) as [| | | |r| |]; try discriminate.
      destruct (Item.en p) as [| | | |e| |]; try discriminate.
      apply Parsed_truthy_string in Htr, Hte. by exists r, e, l.
    + intros (r & e & l & -> & Hr' & -> & He' & Hlv & Hl).
      split; [by apply Parsed_truthy_string|].
      split; [by apply Parsed_truthy_string|]. by exists l.
  - intros elems Hnull. rewrite validPhrases_of_spec, Hnull.
    split; [done|]. intros p. apply elem_of_kept_of.
  - intros clk pre p post db Hp. rewrite !importPhrases_array.
    assert (has_null (pre ++ EObject p :: post) = has_null (pre ++ post))
      as ->.
    { by rewrite !has_null_app, has_null_cons. }
    assert (kept_of (pre ++ EObject p :: post) = kept_of (pre ++ post)) as ->.
    { unfold kept_of. rewrite !objects_of_app, !List.filter_app.
      cbn [objects_of List.filter]. by rewrite Hp. }
    reflexivity.
  - intros clk elems db r.
    destruct (Parsed.importPhrases clk (Doc_array elems) db)
      as [db' o] eqn:Himp.
    pose proof (Parsed_import_not_Reported clk (Doc_array elems) db) as Hsame.
    rewrite Himp in Hsame. cbn [fst snd] in *.
    destruct o as [e| |ins sk]; [rewrite Hsame by done; by left..|].
    apply Parsed_import_counts in Himp as (_ & _ & news & Hn & Hm & _).
    rewrite Hn, elem_of_app. intros [Hr|Hr]; [by left|right].
    destruct (Forall2_elem_of_l _ _ _ _ Hm Hr) as (p & Hp & Ht).
    unfold fresh_items in Hp. apply elem_of_filter_bool in Hp as [Hp _].
    apply elem_of_kept_of in Hp as [Hp Hv]. by exists p.
  - intros clk elems db ins sk H.
    destruct (Parsed.importPhrases clk (Doc_array elems) db)
      as [db' o] eqn:Himp.
    cbn [snd] in H. subst o.
    by apply Parsed_import_counts in Himp as (_ & ? & _).
  - intros clk elems db Hne. rewrite importPhrases_array.
    destruct (has_null elems); [discriminate|].
    destruct (kept_of elems) as [|p ps]; [done|].
    by destruct (Parsed.insertTx_body _ _ _ _ _).
Qed.

(** A candidate whose [ru] is [true] passes the filter and cannot be
    bound: the import throws and the well-formed candidate next to it is
    rolled back.  A [null] element makes the filter itself throw. *)
Lemma truthy_non_text_candidate_is_not_dropped :
  Parsed.importPhrases (fun _ => 0) (Doc_array [EObject good_item]) empty_db
  = (MkDB [Row.Make 1 "Привет" "Hello" "A1" 0 0 0] 1, Reported 1 0)
  ∧ Parsed.importPhrases (fun _ => 0) (Doc_array boolean_elems) empty_db
    = (empty_db, Thrown TypeError)
  ∧ Parsed.importPhrases (fun _ => 0) (Doc_array null_elems) empty_db
    = (empty_db, Thrown TypeError).
Proof. vm_compute. repeat split. Qed.

(** The three invalid shapes the specification names, as elements. *)
Example dropped_shapes :
  kept_of
    [ EObject (Item.Make JUndefined (JString (of_text "Hello"))
                         (JString (of_text "A1")));
      EObject (Item.Make (JString (of_text "Привет")) JUndefined
                         (JString (of_text "A1")));
      EObject (Item.Make (JString (of_text "Привет"))
                         (JString (of_text "Hello"))
                         (JString (of_text "X9")));
      EObject good_item ]
  = [good_item].
Proof. vm_compute. reflexivity. Qed.

(** ** How an import ends *)

Lemma to_text_nil s : s ≠ [] → to_text s ≠ "".
Proof. by destruct s as [|[a|u] s]. Qed.

Lemma check_level_of_text l :
  l ∈ LEVELS → check_level (to_text (of_text l)) = true.
Proof.
  intros Hl. rewrite to_text_of_text. by apply bool_decide_eq_true.
Qed.

(** An item with two non-empty strings and a level is refused only for a
    text that starts with NUL. *)
Lemma insert_failure_strings r e l :
  r ≠ [] → e ≠ [] → l ∈ LEVELS →
  insert_failure (Item.Make (JString r) (JString e) (JString (of_text l)))
  = if leading_NUL (to_text r) || leading_NUL (to_text e)
    then Some (SqliteError SQLITE_CONSTRAINT_CHECK)
    else None.
Proof.
  intros Hr He Hl. unfold insert_failure, Parsed.bound_args.
  cbn -[to_text of_text check_ru check_en check_level].
  rewrite (check_level_of_text _ Hl), andb_true_r.
  unfold check_ru, check_en.
  rewrite !check_text by by apply to_text_nil.
  by destruct (leading_NUL (to_text r)), (leading_NUL (to_text e)).
Qed.

(** A boolean cannot be bound, and an object leaves its parameter
    unbound. *)
Lemma insert_failure_boolean p :
  (∃ b, Item.ru p = JBool b)
  ∨ (∃ r b, Item.ru p = JString r ∧ Item.en p = JBool b) →
  insert_failure p = Some TypeError.
Proof.
  unfold insert_failure, Parsed.bound_args.
  by intros [[b ->]|(r & b & -> & ->)].
Qed.

Lemma insert_failure_object p :
  (∃ o e l, Item.ru p = JObject o ∧ Item.en p = JString e
            ∧ Item.level p = JString l) →
  insert_failure p = Some RangeError.
Proof.
  unfold insert_failure, Parsed.bound_args.
  by intros (o & e & l & -> & -> & ->).
Qed.

(** X6.  How an import of an array ends when the rowid counter has room
    for the batch.  A [null] element makes it throw a TypeError; with no
    kept candidate it only warns.  Otherwise the kept candidates are
    processed in order, and the first one that has no key or that is not
    skipped as a duplicate and cannot be stored decides the error: the
    import throws it and the store is unchanged.  If there is none, the
    import completes: it reports as inserted the number of kept
    candidates that are not skipped and as skipped the others, and
    appends the stored form of the former in order.  A kept candidate
    with two strings cannot be stored exactly when one of them starts
    with the NUL character (CHECK constraint); one whose [ru] is a
    boolean, or whose [ru] is a string and whose [en] is a boolean,
    cannot be bound (TypeError); one whose [ru] is an object and whose
    [en] is a string leaves a parameter unbound (RangeError). *)
Theorem import_outcome_with_room clk elems db :
  last_rowid db + Z.of_nat (length (kept_of elems)) <= MAX_ROWID →
  (has_null elems = true →
   Parsed.importPhrases clk (Doc_array elems) db = (db, Thrown TypeError))
  ∧ (has_null elems = false → kept_of elems = [] →
     Parsed.importPhrases clk (Doc_array elems) db = (db, Warned))
  ∧ (has_null elems = false → kept_of elems ≠ [] →
     ∀ e, first_failure (stored_keys db) (kept_of elems) = Some e →
          Parsed.importPhrases clk (Doc_array elems) db = (db, Thrown e))
  ∧ (has_null elems = false → kept_of elems ≠ [] →
     first_failure (stored_keys db) (kept_of elems) = None →
     ∃ db' news,
       Parsed.importPhrases clk (Doc_array elems) db
       = (db',
          Reported
            (Z.of_nat (length (fresh_items (stored_keys db) (kept_of elems))))
            (Z.of_nat (length (kept_of elems))
             - Z.of_nat
                 (length (fresh_items (stored_keys db) (kept_of elems)))))
       ∧ phrases db' = phrases db ++ news
       ∧ Forall2 (fun r p =>
                    stored_triple p = Some (Row.ru r, Row.en r, Row.level r))
                 news (fresh_items (stored_keys db) (kept_of elems)))
  ∧ (∀ p, p ∈ kept_of elems →
       (∀ r e, Item.ru p = JString r → Item.en p = JString e →
          insert_failure p
          = if leading_NUL (to_text r) || leading_NUL (to_text e)
            then Some (SqliteError SQLITE_CONSTRAINT_CHECK)
            else None)
       ∧ ((∃ b, Item.ru p = JBool b)
          ∨ (∃ r b, Item.ru p = JString r ∧ Item.en p = JBool b) →
          insert_failure p = Some TypeError)
       ∧ ((∃ o e, Item.ru p = JObject o ∧ Item.en p = JString e) →
          insert_failure p = Some RangeError)).
Proof.
  intros Hroom. split; [|split; [|split; [|split]]].
  - intros Hnull. by rewrite importPhrases_array, Hnull.
  - intros Hnull Hnil. by rewrite importPhrases_array, Hnull, Hnil.
  - intros Hnull Hne e He.
    pose proof (Parsed_import_room clk elems db Hnull Hne Hroom) as H.
    by rewrite He in H.
  - intros Hnull Hne Hnone.
    pose proof (Parsed_import_room clk elems db Hnull Hne Hroom) as H.
    rewrite Hnone in H. destruct H as (db' & ins & sk & Himp).
    pose proof (Parsed_import_counts _ _ _ _ _ _ Himp)
      as (Hi & Hs & news & Hn & Hm & _).
    exists db', news. rewrite Himp. split; [|by split].
    do 2 f_equal; lia.
  - intros p (_ & Hv)%elem_of_kept_of.
    apply Parsed_is_valid_iff in Hv as (Htr & Hte & l & Hl & Hlv).
    split; [|split; [apply insert_failure_boolean|]].
    + intros r e Hr He. rewrite Hr in Htr. rewrite He in Hte.
      apply Parsed_truthy_string in Htr, Hte.
      destruct p as [pr pe pl]. cbn [Item.ru Item.en Item.level] in *. subst.
      by apply insert_failure_strings.
    + intros (o & e & Hr & He). apply insert_failure_object.
      by exists o, e, (of_text l).
Qed.

Lemma import_outcome_with_room_witness :
  last_rowid sample_db + Z.of_nat (length (kept_of boolean_elems))
  <= MAX_ROWID
  ∧ Parsed.importPhrases (fun _ => 0) (Doc_array boolean_elems) sample_db
    = (sample_db, Thrown TypeError).
Proof.
  split; [vm_compute; discriminate|].
  destruct (import_outcome_with_room (fun _ => 0) boolean_elems sample_db)
    as (_ & _ & Hthrow & _).
  - vm_compute; discriminate.
  - apply Hthrow; [vm_compute; reflexivity|discriminate|].
    vm_compute; reflexivity.
Defined.

(** An array as text is spread over the parameters: with one string it
    is stored as that string, and with two strings next to an empty
    array it fills [ru] and [en].  An object as text leaves a parameter
    unbound. *)
Example array_text_is_spread :
  statements.getAllPhrases
    (Parsed.importPhrases (fun _ => 0) (Doc_array array_elems) empty_db).1
  = [("a", "x", "A1")]
  ∧ statements.getAllPhrases
      (Parsed.importPhrases (fun _ => 0) (Doc_array spread_elems) empty_db).1
    = [("a", "b", "A1")]
  ∧ Parsed.importPhrases (fun _ => 0) (Doc_array object_elems) empty_db
    = (empty_db, Thrown RangeError).
Proof. vm_compute. repeat split. Qed.

(** * The setup script *)

Lemma initDatabase_existing clk parsed db :
  initDatabase clk (FileContent (Some parsed)) db
  = (FileContent (Some parsed), (Parsed.importPhrases clk parsed db).1,
     exit_code (Parsed.importPhrases clk parsed db).2).
Proof.
  unfold initDatabase.
  by destruct (Parsed.importPhrases clk parsed db) as [db' [e| |ins sk]].
Qed.

Lemma initDatabase_rerun clk1 clk2 file db :
  file_reads_back file → file ≠ FileMissing →
  initDatabase clk2 (initDatabase clk1 file db).1.1
    (initDatabase clk1 file db).1.2
  = initDatabase clk1 file db.
Proof.
  destruct file as [|[parsed|]]; [done| |done]. intros Hback _.
  rewrite (initDatabase_existing clk1). cbn [fst snd].
  rewrite initDatabase_existing.
  destruct (Parsed_import_rerun clk1 clk2 parsed db) as (H1 & H2 & _).
  { intros elems ->. exact Hback. }
  by rewrite H1, H2.
Qed.

Lemma sample_file_reads_back : file_reads_back sample_file.
Proof. vm_compute. reflexivity. Qed.

Lemma initDatabase_file clk file db :
  (initDatabase clk file db).1.1
  = match file with FileMissing => sample_file | _ => file end.
Proof.
  destruct file as [|[parsed|]]; [done| |done].
  by rewrite initDatabase_existing.
Qed.

(** X16.  The setup script settles on a phrases file whose kept
    candidates are all looked up under the key of what is stored for
    them.  When the file exists, running the script again leaves the same
    file and store and ends with the same exit code.  When the file is
    missing, the first run only writes the sample file (the store is
    unchanged, exit code 0) and the second run imports it; from then on
    further runs change nothing. *)
Theorem initDatabase_settles clk1 clk2 clk3 file db :
  file_reads_back file →
  (file ≠ FileMissing →
   initDatabase clk2 (initDatabase clk1 file db).1.1
     (initDatabase clk1 file db).1.2
   = initDatabase clk1 file db)
  ∧ initDatabase clk1 FileMissing db = (sample_file, db, 0)
  ∧ initDatabase clk3
      (initDatabase clk2 (initDatabase clk1 file db).1.1
         (initDatabase clk1 file db).1.2).1.1
      (initDatabase clk2 (initDatabase clk1 file db).1.1
         (initDatabase clk1 file db).1.2).1.2
    = initDatabase clk2 (initDatabase clk1 file db).1.1
        (initDatabase clk1 file db).1.2.
Proof.
  intros Hback.
  split; [by apply initDatabase_rerun|]. split; [done|].
  apply initDatabase_rerun; rewrite initDatabase_file.
  - destruct file as [|[parsed|]];
      [exact sample_file_reads_back|exact Hback|done].
  - by destruct file as [|[parsed|]].
Qed.

Lemma initDatabase_settles_witness :
  file_reads_back (FileContent (Some (Doc_array boolean_elems)))
  ∧ initDatabase (fun _ => 1)
      (initDatabase (fun _ => 0)
         (FileContent (Some (Doc_array boolean_elems))) sample_db).1.1
      (initDatabase (fun _ => 0)
         (FileContent (Some (Doc_array boolean_elems))) sample_db).1.2
    = (FileContent (Some (Doc_array boolean_elems)), sample_db, 1).
Proof.
  split; [vm_compute; reflexivity|].
  destruct (initDatabase_settles (fun _ => 0) (fun _ => 1) (fun _ => 2)
              (FileContent (Some (Doc_array boolean_elems))) sample_db)
    as (Hagain & _).
  - vm_compute; reflexivity.
  - rewrite Hagain by discriminate. vm_compute; reflexivity.
Defined.

(** The sample file, once written, imports in full on a fresh store. *)
Example initDatabase_sample :
  (initDatabase (fun _ => 1)
     (initDatabase (fun _ => 0) FileMissing empty_db).1.1 empty_db).2 = 0
  ∧ length (phrases
      (initDatabase (fun _ => 1)
         (initDatabase (fun _ => 0) FileMissing empty_db).1.1 empty_db).1.2)
    = 10%nat.
Proof. split; vm_compute; reflexivity. Qed.

(** On a file with a number as text the script does not settle: each run
    inserts the candidate once more. *)
Example initDatabase_number_file_grows :
  length (phrases
    (initDatabase (fun _ => 1)
       (FileContent (Some (Doc_array number_elems)))
       (initDatabase (fun _ => 0)
          (FileContent (Some (Doc_array number_elems))) empty_db).1.2).1.2)
  = 2%nat.
Proof. vm_compute. reflexivity. Qed.

